(** * for_wes: the link traversal and export automation (automation.py)

    A shallow embedding of the traversal-and-export engine of
    [automation.py]: label extraction, link selection, the click with its
    script fallback, the export trigger with its locator mapping, the
    download waiter and the traversal loop.

    Conventions of the embedding.
    - A Python [str] is a [string]; its characters are read as code points
      below 256.
    - A Python exception is a value of [exn]; a call that may raise returns
      a [Res].  Exceptions outside [Exception] (interpreter exits) are not
      modelled.
    - The browser is an oracle: every element handle carries the answer the
      browser gives to each query and click on it.
    - [print] calls write to the standard output only and are left out. *)

From Stdlib Require Import ZArith NArith List String Ascii Bool Lia DecimalString.
From stdpp Require Import base gmap sets list strings.
From Equations Require Import Equations.

Local Open Scope string_scope.
Local Open Scope Z_scope.

(** ** Exceptions and results *)

Inductive exn : Type :=
| StaleElementReferenceException
| JavascriptException
| TimeoutException
| WebDriverException
| ValueError (msg : string)
| KeyError (key : string).

Inductive Res (A : Type) : Type :=
| Ok (a : A)
| Raise (e : exn).
Arguments Ok {A} a.
Arguments Raise {A} e.

Definition res_bind {A B : Type} (m : Res A) (k : A -> Res B) : Res B :=
  match m with
  | Ok a => k a
  | Raise e => Raise e
  end.

#[global] Instance res_mret : MRet Res := fun A a => Ok a.
#[global] Instance res_mbind : MBind Res := fun A B k m => res_bind m k.

(** ** Strings as Python sees them *)

Module PyStr.

(** [str.isspace] on one character, for the code points below 256:
    9 to 13, 28 to 32, 133 and 160. *)
Definition is_space (c : ascii) : bool :=
  let n := nat_of_ascii c in
  ((9 <=? n) && (n <=? 13) || (28 <=? n) && (n <=? 32)
   || (n =? 133) || (n =? 160))%nat.

(** [str.lstrip()] *)
Fixpoint lstrip (s : string) : string :=
  match s with
  | EmptyString => EmptyString
  | String c r => if is_space c then lstrip r else s
  end.

(** [str.rstrip()] *)
Fixpoint rstrip (s : string) : string :=
  match s with
  | EmptyString => EmptyString
  | String c r =>
      match rstrip r with
      | EmptyString => if is_space c then EmptyString else String c EmptyString
      | r' => String c r'
      end
  end.

(** [str.strip()] *)
Definition strip (s : string) : string := rstrip (lstrip s).

(** Truth value of a [str]: non-empty. *)
Definition truthy (s : string) : bool :=
  match s with
  | EmptyString => false
  | String _ _ => true
  end.

(** Truth value of an [Optional[str]]: present and non-empty. *)
Definition truthy_opt (o : option string) : bool :=
  match o with
  | Some s => truthy s
  | None => false
  end.

(** [str.lower()] on one character, for the code points below 256. *)
Definition lower_char (c : ascii) : ascii :=
  let n := nat_of_ascii c in
  if ((65 <=? n) && (n <=? 90)
      || (192 <=? n) && (n <=? 222) && negb (n =? 215))%nat
  then ascii_of_nat (n + 32) else c.

(** [str.lower()] *)
Fixpoint lower (s : string) : string :=
  match s with
  | EmptyString => EmptyString
  | String c r => String (lower_char c) (lower r)
  end.

(** [str(n)] for a non-negative integer. *)
Definition of_N (n : N) : string := NilZero.string_of_uint (N.to_uint n).

(** [name.endswith(suffix)] *)
Definition endswith (name suffix : string) : bool :=
  let n := String.length name in
  let m := String.length suffix in
  (m <=? n)%nat && String.eqb (substring (n - m) m name) suffix.

End PyStr.

(** ** Elements *)

(** An element handle of the page.  Every read may raise (the element may
    have gone stale); [get_attribute] answers [None] for a missing
    attribute; [el_id] is [id(element)]. *)
Record WebElement : Type := mkElement {
  el_text : Res string;
  el_href : Res (option string);
  el_data_id : Res (option string);
  el_tag_name : Res string;
  el_id : N;
  el_scroll : Res unit;
  el_click : Res unit;
  el_script_click : Res unit
}.

(** [extract_label] *)
Definition extract_label (element : WebElement) : Res string :=
  raw ← el_text element;
  let text := PyStr.strip raw in
  if PyStr.truthy text then Ok text else
  href ← el_href element;
  if PyStr.truthy_opt href then Ok (default "" href) else
  data_id ← el_data_id element;
  if PyStr.truthy_opt data_id then Ok (default "" data_id) else
  tag ← el_tag_name element;
  let tag_name := if PyStr.truthy tag then tag else "link" in
  Ok (tag_name ++ "-" ++ PyStr.of_N (el_id element)).

(** ** Link selection *)

(** The first loop of [pick_next_link]: the candidates whose label can be
    read, each with its label, in discovery order.  A stale candidate is
    skipped; any other exception leaves the function. *)
Fixpoint collect_available (candidates : list WebElement)
  : Res (list (WebElement * string)) :=
  match candidates with
  | [] => Ok []
  | element :: rest =>
      match extract_label element with
      | Ok label =>
          available ← collect_available rest;
          Ok ((element, label) :: available)
      | Raise StaleElementReferenceException => collect_available rest
      | Raise e => Raise e
      end
  end.

(** The inner loop of the target branch: the first available candidate
    whose label equals [target]. *)
Fixpoint find_target (available : list (WebElement * string)) (target : string)
  : option (WebElement * string) :=
  match available with
  | [] => None
  | (element, label) :: rest =>
      if String.eqb label target then Some (element, label)
      else find_target rest target
  end.

(** The outer loop of the target branch. *)
Fixpoint scan_targets (available : list (WebElement * string))
    (visited_labels : gset string) (target_texts : list string)
  : option (WebElement * string) :=
  match target_texts with
  | [] => None
  | target :: rest =>
      if decide (target ∈ visited_labels)
      then scan_targets available visited_labels rest
      else match find_target available target with
           | Some found => Some found
           | None => scan_targets available visited_labels rest
           end
  end.

(** The last loop: discovery order. *)
Fixpoint first_unvisited (available : list (WebElement * string))
    (visited_labels : gset string) : option (WebElement * string) :=
  match available with
  | [] => None
  | (element, label) :: rest =>
      if decide (label ∈ visited_labels)
      then first_unvisited rest visited_labels
      else Some (element, label)
  end.

(** Truth value of an [Optional[Sequence[str]]]: present and non-empty. *)
Definition targets_truthy (target_texts : option (list string)) : bool :=
  match target_texts with
  | Some (_ :: _) => true
  | _ => false
  end.

(** [pick_next_link] *)
Definition pick_next_link (candidates : list WebElement)
    (visited_labels : gset string) (target_texts : option (list string))
  : Res (option (WebElement * string)) :=
  available ← collect_available candidates;
  match available with
  | [] => Ok None
  | _ :: _ =>
      if targets_truthy target_texts
      then Ok (scan_targets available visited_labels (default [] target_texts))
      else Ok (first_unvisited available visited_labels)
  end.

(** [normalize_target_texts]; the entries of the configured list are
    strings, on which [str(item)] is the identity. *)
Definition normalize_target_texts (raw : option (list string))
  : option (list string) :=
  match raw with
  | None | Some [] => None
  | Some items =>
      let cleaned :=
        map PyStr.strip (filter (fun item => PyStr.truthy (PyStr.strip item) = true) items) in
      match cleaned with
      | [] => None
      | _ :: _ => Some cleaned
      end
  end.

(** ** Locators *)

(** Selenium's [By] strategies. *)
Inductive By : Type :=
| CSS_SELECTOR | XPATH | ID | NAME | CLASS_NAME | TAG_NAME
| LINK_TEXT | PARTIAL_LINK_TEXT.

(** The string each [By] constant stands for in Selenium. *)
Definition By_value (b : By) : string :=
  match b with
  | CSS_SELECTOR => "css selector"
  | XPATH => "xpath"
  | ID => "id"
  | NAME => "name"
  | CLASS_NAME => "class name"
  | TAG_NAME => "tag name"
  | LINK_TEXT => "link text"
  | PARTIAL_LINK_TEXT => "partial link text"
  end.

(** The dictionary literal of [map_by], in source order. *)
Definition mapping : list (string * By) :=
  [ ("css", CSS_SELECTOR); ("css_selector", CSS_SELECTOR); ("xpath", XPATH);
    ("id", ID); ("name", NAME); ("class", CLASS_NAME);
    ("class_name", CLASS_NAME); ("tag", TAG_NAME); ("tag_name", TAG_NAME);
    ("link_text", LINK_TEXT); ("partial_link_text", PARTIAL_LINK_TEXT) ].

Definition mapping_dict : gmap string By := list_to_map mapping.

(** [map_by] *)
Definition map_by (by_value : string) : Res By :=
  match mapping_dict !! by_value with
  | None => Raise (ValueError ("Unsupported locator type: " ++ by_value))
  | Some b => Ok b
  end.

(** ** The browser session *)

(** What the engine does to the outside world, in the order it does it. *)
Inductive Event : Type :=
| EvWaitReady (timeout : Z)
| EvFindElements (selector : string)
| EvScrollIntoView (element : N)
| EvNativeClick (element : N)
| EvScriptClick (element : N)
| EvSleep (seconds : Z)
| EvWaitClickable (by_ : By) (value : string) (timeout : Z)
| EvGlob (at_time : Z)
| EvBack.

(** The state a call leaves behind, whether it returns or raises: the
    clock ([time.time()], in whole seconds; it advances only while the
    engine sleeps) and the events so far. *)
Record Session : Type := mkSession {
  clock : Z;
  trace : list Event
}.

Definition M (A : Type) : Type := Session -> Res A * Session.

Definition ret {A : Type} (a : A) : M A := fun s => (Ok a, s).

Definition bind {A B : Type} (m : M A) (k : A -> M B) : M B :=
  fun s =>
    match m s with
    | (Ok a, s') => k a s'
    | (Raise e, s') => (Raise e, s')
    end.

Definition lift {A : Type} (r : Res A) : M A := fun s => (r, s).

Definition emit (ev : Event) : M unit :=
  fun s => (Ok tt, mkSession (clock s) (trace s ++ [ev])).

(** [try: body except Exception: handler] *)
Definition try_except {A : Type} (body : M A) (handler : exn -> M A) : M A :=
  fun s =>
    match body s with
    | (Ok a, s') => (Ok a, s')
    | (Raise e, s') => handler e s'
    end.

(** [time.sleep(seconds)] *)
Definition sleep (seconds : Z) : M unit :=
  fun s => (Ok tt, mkSession (clock s + seconds) (trace s ++ [EvSleep seconds])).

Declare Scope session_scope.
Delimit Scope session_scope with session.
Notation "x <- m ;; k" := (bind m (fun x => k))
  (at level 100, m at next level, right associativity) : session_scope.
Notation "m ;; k" := (bind m (fun _ => k))
  (at level 100, right associativity) : session_scope.

Local Open Scope session_scope.

(** ** Click executor *)

(** [click_element] *)
Definition click_element (element : WebElement) : M unit :=
  emit (EvScrollIntoView (el_id element)) ;;
  lift (el_scroll element) ;;
  try_except
    (emit (EvNativeClick (el_id element)) ;; lift (el_click element))
    (fun _ =>
       emit (EvScriptClick (el_id element)) ;;
       lift (el_script_click element)).

(** ** Export trigger *)

(** What the driver answers during one cycle of the loop. *)
Record Browser : Type := mkBrowser {
  (** [WebDriverWait(...).until(find_elements)] of [collect_link_elements] *)
  link_elements : string -> Res (list WebElement);
  (** [WebDriverWait(driver, timeout).until(element_to_be_clickable(locator))] *)
  until_clickable : By -> string -> Z -> Res WebElement;
  (** [driver.back()] *)
  back : Res unit;
  (** [wait_for_page_ready] *)
  page_ready : Z -> Res unit
}.

(** [trigger_export] *)
Definition trigger_export (driver : Browser) (locator_config : gmap string string)
    (timeout : Z) : M unit :=
  let by_ := PyStr.lower (default "css" (locator_config !! "by")) in
  value <- lift (match locator_config !! "value" with
                 | Some v => Ok v
                 | None => Raise (KeyError "value")
                 end) ;;
  kind <- lift (map_by by_) ;;
  emit (EvWaitClickable kind value timeout) ;;
  button <- lift (until_clickable driver kind value timeout) ;;
  emit (EvNativeClick (el_id button)) ;;
  lift (el_click button).

(** ** Download waiter *)

(** The files of the download directory at each time, by name. *)
Definition Directory : Type := Z -> list string.

(** [any(target_dir.glob("*.crdownload"))] at the current time; the names
    are matched as they are written. *)
Definition any_crdownload (target_dir : Directory) (now : Z) : bool :=
  existsb (fun name => PyStr.endswith name ".crdownload") (target_dir now).

(** The [while] loop of [wait_for_downloads]. *)
Equations? wait_loop (target_dir : Directory) (deadline : Z) (s : Session)
  : Res unit * Session by wf (Z.to_nat (deadline - clock s)) lt :=
wait_loop target_dir deadline s with Z_lt_dec (clock s) deadline := {
  | left _ =>
      let s1 := mkSession (clock s) (trace s ++ [EvGlob (clock s)]) in
      if any_crdownload target_dir (clock s)
      then wait_loop target_dir deadline
             (mkSession (clock s1 + 1) (trace s1 ++ [EvSleep 1]))
      else (Ok tt, s1)
  | right _ => (Raise TimeoutException, s)
  }.
Proof. simpl. lia. Qed.

(** [wait_for_downloads] *)
Definition wait_for_downloads (target_dir : Directory) (timeout : Z) : M unit :=
  fun s => wait_loop target_dir (clock s + timeout) s.

(** ** Traversal loop *)

(** The options of [automation_config.json] that [run_automation] reads;
    an absent option is [None] and takes the default of its [config.get]. *)
Record Config : Type := mkConfig {
  start_url : string;
  link_items_selector : string;
  export_button : gmap string string;
  link_text_targets : option (list string);
  page_ready_timeout : option Z;
  wait_after_link_seconds : option Z;
  export_click_timeout_seconds : option Z;
  navigate_back_after_export : option bool;
  download_wait_timeout_seconds : option Z
}.

Definition DEFAULT_TIMEOUT : Z := 30.

(** The outside world of one run: the driver's answers in each iteration
    (counted from 1, as [iteration] is) and the download directory. *)
Record World : Type := mkWorld {
  driver_at : nat -> Browser;
  download_dir : Directory
}.

(** Where the loop stands: the statement of the body that runs next. *)
Inductive Stage : Type :=
| SCANNING
| SELECTING (link_elements : list WebElement)
| CLICKING (element : WebElement) (label : string)
| WAITING_CONTENT (label : string)
| EXPORTING (label : string)
| WAITING_DOWNLOAD (label : string)
| RETURNING (label : string)
| DONE
| ABORTED (e : exn).

(** The local state of [run_automation] inside its loop. *)
Record Loop : Type := mkLoop {
  stage : Stage;
  visited_labels : gset string;
  iteration : nat;
  session : Session
}.

Section Run.

Variable config : Config.
Variable world : World.

Definition target_texts : option (list string) :=
  normalize_target_texts (link_text_targets config).
Definition wait_after_link : Z := default 10 (wait_after_link_seconds config).
Definition export_timeout : Z :=
  default DEFAULT_TIMEOUT (export_click_timeout_seconds config).
Definition back_after_export : bool :=
  default false (navigate_back_after_export config).
Definition download_wait : Z :=
  default 60 (download_wait_timeout_seconds config).
Definition ready_timeout : Z :=
  default DEFAULT_TIMEOUT (page_ready_timeout config).

(** [collect_link_elements] *)
Definition collect_link_elements (driver : Browser) (selector : string)
  : M (list WebElement) :=
  emit (EvFindElements selector) ;;
  lift (link_elements driver selector).

(** [wait_for_page_ready] *)
Definition wait_for_page_ready (driver : Browser) (timeout : Z) : M unit :=
  emit (EvWaitReady timeout) ;;
  lift (page_ready driver timeout).

(** Run [m] for the current stage: on return go where [next] says, on an
    exception leave the loop; the session is kept either way. *)
Definition advance {A : Type} (l : Loop) (m : M A) (next : A -> Loop -> Loop)
  : Loop :=
  match m (session l) with
  | (Ok a, s') =>
      next a (mkLoop (stage l) (visited_labels l) (iteration l) s')
  | (Raise e, s') =>
      mkLoop (ABORTED e) (visited_labels l) (iteration l) s'
  end.

Definition goto (st : Stage) (l : Loop) : Loop :=
  mkLoop st (visited_labels l) (iteration l) (session l).

(** One stage of the body of [while True]. *)
Definition step (l : Loop) : Loop :=
  match stage l with
  | SCANNING =>
      let l1 := mkLoop (stage l) (visited_labels l) (S (iteration l)) (session l) in
      advance l1
        (collect_link_elements (driver_at world (iteration l1))
           (link_items_selector config))
        (fun elements => goto (SELECTING elements))
  | SELECTING elements =>
      advance l
        (lift (pick_next_link elements (visited_labels l) target_texts))
        (fun next_item =>
           match next_item with
           | None => goto DONE
           | Some (element, label) => goto (CLICKING element label)
           end)
  | CLICKING element label =>
      advance l (click_element element)
        (fun _ l' =>
           mkLoop (WAITING_CONTENT label) ({[ label ]} ∪ visited_labels l')
             (iteration l') (session l'))
  | WAITING_CONTENT label =>
      advance l
        (if 0 <? wait_after_link then sleep wait_after_link else ret tt)
        (fun _ => goto (EXPORTING label))
  | EXPORTING label =>
      advance l
        (trigger_export (driver_at world (iteration l))
           (export_button config) export_timeout)
        (fun _ => goto (WAITING_DOWNLOAD label))
  | WAITING_DOWNLOAD label =>
      advance l
        (if 0 <? download_wait
         then wait_for_downloads (download_dir world) download_wait
         else ret tt)
        (fun _ => goto (RETURNING label))
  | RETURNING label =>
      advance l
        (if back_after_export
         then emit EvBack ;;
              lift (back (driver_at world (iteration l))) ;;
              wait_for_page_ready (driver_at world (iteration l)) ready_timeout
         else ret tt)
        (fun _ => goto SCANNING)
  | DONE => l
  | ABORTED _ => l
  end.

(** [n] stages of the loop. *)
Fixpoint steps (n : nat) (l : Loop) : Loop :=
  match n with
  | O => l
  | S n' => steps n' (step l)
  end.

(** The state in which [run_automation] enters its loop, from the session
    left by opening the start page. *)
Definition loop_entry (s : Session) : Loop := mkLoop SCANNING ∅ 0 s.

End Run.

(** * Properties *)

(** ** Strings *)

Lemma truthy_true (s : string) : PyStr.truthy s = true <-> s <> "".
Proof. destruct s; simpl; split; congruence. Qed.

Lemma truthy_false (s : string) : PyStr.truthy s = false <-> s = "".
Proof. destruct s; simpl; split; congruence. Qed.

Lemma lstrip_head (s : string) :
  PyStr.lstrip s = "" \/
  exists c r, PyStr.lstrip s = String c r /\ PyStr.is_space c = false.
Proof.
  induction s as [|c r IH]; simpl; [by left|].
  destruct (PyStr.is_space c) eqn:Hc; [exact IH|].
  right. by exists c, r.
Qed.

Lemma rstrip_keeps_head (c : ascii) (r : string) :
  PyStr.is_space c = false ->
  exists r', PyStr.rstrip (String c r) = String c r'.
Proof.
  intros Hc. simpl. destruct (PyStr.rstrip r); rewrite ?Hc; eauto.
Qed.

Lemma rstrip_idem (s : string) : PyStr.rstrip (PyStr.rstrip s) = PyStr.rstrip s.
Proof.
  induction s as [|c r IH]; simpl; [done|].
  destruct (PyStr.rstrip r) as [|c' r'] eqn:Hr.
  - destruct (PyStr.is_space c) eqn:Hc; simpl; [done|]. by rewrite Hc.
  - simpl in *. by rewrite IH.
Qed.

(** A stripped string is a fixed point of [strip]: it has no white space
    left at either end. *)
Lemma strip_idem (s : string) : PyStr.strip (PyStr.strip s) = PyStr.strip s.
Proof.
  unfold PyStr.strip.
  destruct (lstrip_head s) as [-> | (c & r & -> & Hc)]; [done|].
  destruct (rstrip_keeps_head c r Hc) as [r' Hr'].
  rewrite Hr'. simpl PyStr.lstrip. rewrite Hc, <- Hr'. apply rstrip_idem.
Qed.

(** ** Label extractor *)

(** The text wins whenever it is not blank; the later reads do not happen. *)
Lemma extract_label_text (e : WebElement) (raw : string) :
  el_text e = Ok raw -> PyStr.strip raw <> "" ->
  extract_label e = Ok (PyStr.strip raw).
Proof.
  intros Ht Hne. unfold extract_label. rewrite Ht. simpl.
  apply truthy_true in Hne. by rewrite Hne.
Qed.

Lemma extract_label_nonempty (e : WebElement) (l : string) :
  extract_label e = Ok l -> l <> "".
Proof.
  unfold extract_label.
  destruct (el_text e) as [raw|]; simpl; [|done].
  destruct (PyStr.truthy (PyStr.strip raw)) eqn:Ht.
  { intros [= <-]. by apply truthy_true. }
  destruct (el_href e) as [href|]; simpl; [|done].
  destruct (PyStr.truthy_opt href) eqn:Hh.
  { intros [= <-]. destruct href; simpl in *; [by apply truthy_true|done]. }
  destruct (el_data_id e) as [did|]; simpl; [|done].
  destruct (PyStr.truthy_opt did) eqn:Hd.
  { intros [= <-]. destruct did; simpl in *; [by apply truthy_true|done]. }
  destruct (el_tag_name e) as [tag|]; simpl; [|done].
  intros [= <-]. destruct (PyStr.truthy tag) eqn:Htag.
  - destruct tag; simpl in *; done.
  - done.
Qed.

(** The fallback chain of the extractor, in the order of the source. *)
Definition label_chain (e : WebElement) (raw : string)
    (href data_id : option string) (tag : string) : list string :=
  [ PyStr.strip raw; default "" href; default "" data_id;
    (if PyStr.truthy tag then tag else "link") ++ "-" ++ PyStr.of_N (el_id e) ].

(** The first non-empty string of a list. *)
Fixpoint first_nonempty (chain : list string) : option string :=
  match chain with
  | [] => None
  | s :: rest => if decide (s = "") then first_nonempty rest else Some s
  end.

Lemma first_nonempty_skip (rest : list string) :
  first_nonempty ("" :: rest) = first_nonempty rest.
Proof. reflexivity. Qed.

Lemma first_nonempty_take (s : string) (rest : list string) :
  s <> "" -> first_nonempty (s :: rest) = Some s.
Proof. intros Hs. simpl. by rewrite decide_False. Qed.

(** C4. For an element whose reads succeed, [extract_label] returns the
    first non-empty value of the chain: stripped text, then [href], then
    [data-id], then the tag name (or "link") joined by "-" to the element's
    identity number; the result is never the empty string.  So an element
    with empty text and href "/item/7" is labelled "/item/7", and an element
    with text "Report Q1" is labelled "Report Q1" whatever its href. *)
Theorem extract_label_first_nonempty
    (e : WebElement) (raw : string) (href data_id : option string) (tag : string) :
  el_text e = Ok raw -> el_href e = Ok href ->
  el_data_id e = Ok data_id -> el_tag_name e = Ok tag ->
  exists l,
    extract_label e = Ok l
    /\ first_nonempty (label_chain e raw href data_id tag) = Some l
    /\ l <> ""
    /\ (raw = "" -> href = Some "/item/7" -> l = "/item/7")
    /\ (raw = "Report Q1" -> l = "Report Q1").
Proof.
  intros Ht Hh Hd Hg.
  assert (Hex : exists l, extract_label e = Ok l
                /\ first_nonempty (label_chain e raw href data_id tag) = Some l).
  { unfold extract_label, label_chain. rewrite Ht, Hh, Hd, Hg.
    cbn [mbind res_mbind res_bind].
    destruct (PyStr.strip raw) as [|c r] eqn:Hs.
    2: { eexists; split; [done|]. by apply first_nonempty_take. }
    rewrite first_nonempty_skip. cbn [PyStr.truthy].
    destruct href as [[|c r]|]; cbn [PyStr.truthy_opt PyStr.truthy default];
      rewrite ?first_nonempty_skip;
      try (eexists; split; [done|]; by apply first_nonempty_take).
    all: destruct data_id as [[|c' r']|];
      cbn [PyStr.truthy_opt PyStr.truthy default mbind res_mbind res_bind];
      rewrite ?first_nonempty_skip;
      try (eexists; split; [done|]; by apply first_nonempty_take).
    all: eexists; split; [done|]; apply first_nonempty_take; by destruct tag. }
  destruct Hex as (l & Hl & Hc). exists l. split; [done|]. split; [done|].
  split; [by eapply extract_label_nonempty|].
  split.
  - intros -> ->. unfold extract_label in Hl. rewrite Ht, Hh in Hl.
    simpl in Hl. congruence.
  - intros ->. unfold extract_label in Hl. rewrite Ht in Hl.
    vm_compute in Hl. congruence.
Qed.

Definition item7 : WebElement :=
  mkElement (Ok "") (Ok (Some "/item/7")) (Ok None) (Ok "a") 7
    (Ok tt) (Ok tt) (Ok tt).

Lemma extract_label_first_nonempty_witness :
  exists l, extract_label item7 = Ok l
    /\ first_nonempty (label_chain item7 "" (Some "/item/7") None "a") = Some l
    /\ l <> ""
    /\ ("" = "" -> Some "/item/7" = Some "/item/7" -> l = "/item/7")
    /\ ("" = "Report Q1" -> l = "Report Q1").
Proof.
  apply (extract_label_first_nonempty item7 "" (Some "/item/7") None "a");
    reflexivity.
Defined.

(** ** Link selector *)

Local Open Scope list_scope.

(** What [collect_available] keeps of one candidate. *)
Definition readable (e : WebElement) : option (WebElement * string) :=
  match extract_label e with
  | Ok l => Some (e, l)
  | Raise _ => None
  end.

Lemma collect_available_omap (candidates : list WebElement)
    (available : list (WebElement * string)) :
  collect_available candidates = Ok available ->
  available = omap readable candidates.
Proof.
  revert available.
  induction candidates as [|e rest IH]; intros available; simpl.
  - by intros [= <-].
  - unfold readable at 1. destruct (extract_label e) as [l|x].
    + destruct (collect_available rest) as [av|]; simpl; [|done].
      intros [= <-]. by rewrite (IH av).
    + destruct x; try done; apply IH.
Qed.

Lemma collect_available_elem (candidates : list WebElement)
    (available : list (WebElement * string)) (e : WebElement) (l : string) :
  collect_available candidates = Ok available ->
  (e, l) ∈ available -> e ∈ candidates /\ extract_label e = Ok l.
Proof.
  intros Hc Hin. apply collect_available_omap in Hc. subst available.
  apply list_elem_of_omap in Hin as (e' & He' & Hr).
  unfold readable in Hr. destruct (extract_label e') eqn:Hx; [|done].
  by injection Hr as -> ->.
Qed.

Lemma find_target_Some (available : list (WebElement * string))
    (target : string) (e : WebElement) (l : string) :
  find_target available target = Some (e, l) <->
  l = target /\
  exists pre post, available = pre ++ (e, l) :: post
                   /\ forall p, p ∈ pre -> p.2 <> target.
Proof.
  induction available as [|[e0 l0] rest IH]; simpl.
  - split; [done|]. intros (_ & pre & post & Heq & _). by destruct pre.
  - destruct (String.eqb l0 target) eqn:Heqb.
    + apply String.eqb_eq in Heqb. subst l0. split.
      * intros [= <- <-]. split; [done|]. exists [], rest. split; [done|].
        intros p Hp. by apply elem_of_nil in Hp.
      * intros (-> & pre & post & Heq & Hpre).
        destruct pre as [|p pre]; simplify_eq/=; [done|].
        exfalso. apply (Hpre (e0, target)); [by left|done].
    + apply String.eqb_neq in Heqb. rewrite IH. split.
      * intros (-> & pre & post & -> & Hpre). split; [done|].
        exists ((e0, l0) :: pre), post. split; [done|].
        intros p [->|Hp]%elem_of_cons; [done|by apply Hpre].
      * intros (-> & pre & post & Heq & Hpre). split; [done|].
        destruct pre as [|p pre]; simplify_eq/=.
        exists pre, post. split; [done|].
        intros q Hq. apply Hpre. by right.
Qed.

Lemma find_target_None (available : list (WebElement * string))
    (target : string) :
  find_target available target = None <->
  forall p, p ∈ available -> p.2 <> target.
Proof.
  induction available as [|[e0 l0] rest IH]; simpl.
  - split; [|done]. intros _ p Hp. by apply elem_of_nil in Hp.
  - destruct (String.eqb l0 target) eqn:Heqb.
    + apply String.eqb_eq in Heqb. split; [done|].
      intros H. exfalso. apply (H (e0, l0)); [by left|done].
    + apply String.eqb_neq in Heqb. rewrite IH. split.
      * intros H p [->|Hp]%elem_of_cons; [done|by apply H].
      * intros H p Hp. apply H. by right.
Qed.

(** A target is passed over when it is visited or no candidate bears it. *)
Definition passed_over (available : list (WebElement * string))
    (visited : gset string) (target : string) : Prop :=
  target ∈ visited \/ forall p, p ∈ available -> p.2 <> target.

Lemma scan_targets_None (available : list (WebElement * string))
    (visited : gset string) (targets : list string) :
  scan_targets available visited targets = None <->
  forall t, t ∈ targets -> passed_over available visited t.
Proof.
  induction targets as [|t rest IH]; simpl.
  - split; [|done]. intros _ t Ht. by apply elem_of_nil in Ht.
  - destruct (decide (t ∈ visited)) as [Hv|Hv].
    + rewrite IH. split.
      * intros H t' [->|Ht']%elem_of_cons; [by left|by apply H].
      * intros H t' Ht'. apply H. by right.
    + destruct (find_target available t) as [found|] eqn:Hf.
      * split; [done|]. intros H. exfalso.
        destruct (H t) as [Hin|Hno]; [by left|done|].
        apply find_target_None in Hno. congruence.
      * rewrite IH. pose proof (proj1 (find_target_None _ _) Hf) as Hno. split.
        -- intros H t' [->|Ht']%elem_of_cons; [by right|by apply H].
        -- intros H t' Ht'. apply H. by right.
Qed.

Lemma scan_targets_Some (available : list (WebElement * string))
    (visited : gset string) (targets : list string)
    (e : WebElement) (l : string) :
  scan_targets available visited targets = Some (e, l) <->
  exists before after,
    targets = before ++ l :: after
    /\ (forall t, t ∈ before -> passed_over available visited t)
    /\ (l ∉ visited)
    /\ find_target available l = Some (e, l).
Proof.
  induction targets as [|t rest IH]; simpl.
  - split; [done|]. intros (before & after & Heq & _). by destruct before.
  - destruct (decide (t ∈ visited)) as [Hv|Hv].
    + rewrite IH. split.
      * intros (before & after & -> & Hb & Hl & Hf).
        exists (t :: before), after. split; [done|]. split; [|done].
        intros t' [->|Ht']%elem_of_cons; [by left|by apply Hb].
      * intros (before & after & Heq & Hb & Hl & Hf).
        destruct before as [|t0 before]; simplify_eq/=; [done|].
        exists before, after.
        split; [done|]. split; [|done]. intros t' Ht'. apply Hb. by right.
    + destruct (find_target available t) as [[e1 l1]|] eqn:Hf.
      * pose proof Hf as Hf'. apply find_target_Some in Hf' as [-> _]. split.
        -- intros [= -> ->]. exists [], rest. split; [done|].
           split; [|done]. intros t' Ht'. by apply elem_of_nil in Ht'.
        -- intros (before & after & Heq & Hb & Hl & Hfl).
           destruct before as [|t0 before]; simplify_eq/=; [done|].
           exfalso.
           destruct (Hb t0) as [Hin|Hno]; [by left|done|].
           apply find_target_None in Hno. congruence.
      * rewrite IH. pose proof (proj1 (find_target_None _ _) Hf) as Hno. split.
        -- intros (before & after & -> & Hb & Hl & Hfl).
           exists (t :: before), after. split; [done|]. split; [|done].
           intros t' [->|Ht']%elem_of_cons; [by right|by apply Hb].
        -- intros (before & after & Heq & Hb & Hl & Hfl).
           destruct before as [|t0 before]; simplify_eq/=.
           exists before, after.
           split; [done|]. split; [|done]. intros t' Ht'. apply Hb. by right.
Qed.

Lemma first_unvisited_None (available : list (WebElement * string))
    (visited : gset string) :
  first_unvisited available visited = None <->
  forall p, p ∈ available -> p.2 ∈ visited.
Proof.
  induction available as [|[e0 l0] rest IH]; simpl.
  - split; [|done]. intros _ p Hp. by apply elem_of_nil in Hp.
  - destruct (decide (l0 ∈ visited)) as [Hv|Hv].
    + rewrite IH. split.
      * intros H p [->|Hp]%elem_of_cons; [done|by apply H].
      * intros H p Hp. apply H. by right.
    + split; [done|]. intros H. exfalso. apply Hv.
      apply (H (e0, l0)). by left.
Qed.

Lemma first_unvisited_Some (available : list (WebElement * string))
    (visited : gset string) (e : WebElement) (l : string) :
  first_unvisited available visited = Some (e, l) <->
  exists pre post,
    available = pre ++ (e, l) :: post
    /\ (forall p, p ∈ pre -> p.2 ∈ visited)
    /\ l ∉ visited.
Proof.
  induction available as [|[e0 l0] rest IH]; simpl.
  - split; [done|]. intros (pre & post & Heq & _). by destruct pre.
  - destruct (decide (l0 ∈ visited)) as [Hv|Hv].
    + rewrite IH. split.
      * intros (pre & post & -> & Hpre & Hl).
        exists ((e0, l0) :: pre), post. split; [done|]. split; [|done].
        intros p [->|Hp]%elem_of_cons; [done|by apply Hpre].
      * intros (pre & post & Heq & Hpre & Hl).
        destruct pre as [|p pre]; simplify_eq/=; [done|].
        exists pre, post. split; [done|].
        split; [|done]. intros q Hq. apply Hpre. by right.
    + split.
      * intros [= <- <-]. exists [], rest. split; [done|]. split; [|done].
        intros p Hp. by apply elem_of_nil in Hp.
      * intros (pre & post & Heq & Hpre & Hl).
        destruct pre as [|p pre]; simplify_eq/=; [done|].
        exfalso. apply Hv.
        apply (Hpre (e0, l0)). by left.
Qed.

(** [pick_next_link] once the labels are read: the early return on an
    empty list agrees with both scans. *)
Lemma pick_next_link_available (candidates : list WebElement)
    (visited : gset string) (targets : option (list string))
    (available : list (WebElement * string)) :
  collect_available candidates = Ok available ->
  pick_next_link candidates visited targets =
  Ok (if targets_truthy targets
      then scan_targets available visited (default [] targets)
      else first_unvisited available visited).
Proof.
  intros Hc. unfold pick_next_link. rewrite Hc. simpl.
  destruct available as [|p rest]; [|by destruct (targets_truthy targets)].
  destruct (targets_truthy targets); [|done].
  f_equal. symmetry. apply scan_targets_None.
  intros t _. right. intros p Hp. by apply elem_of_nil in Hp.
Qed.

Lemma pick_next_link_Ok (candidates : list WebElement)
    (visited : gset string) (targets : option (list string))
    (r : option (WebElement * string)) :
  pick_next_link candidates visited targets = Ok r ->
  exists available, collect_available candidates = Ok available.
Proof.
  unfold pick_next_link.
  destruct (collect_available candidates) as [av|]; simpl; [eauto|done].
Qed.

(** Reading a label either succeeds or finds the element stale. *)
Definition stale_or_read (e : WebElement) : Prop :=
  forall x, extract_label e = Raise x -> x = StaleElementReferenceException.

Lemma collect_available_total (candidates : list WebElement) :
  Forall stale_or_read candidates ->
  collect_available candidates = Ok (omap readable candidates).
Proof.
  induction 1 as [|e rest He _ IH]; simpl; [done|].
  unfold readable at 1. destruct (extract_label e) as [l|x] eqn:Hx.
  - by rewrite IH.
  - by rewrite (He x Hx).
Qed.

(** A link that shows [text] and answers every click. *)
Definition anchor (text : string) (n : N) : WebElement :=
  mkElement (Ok text) (Ok None) (Ok None) (Ok "a") n (Ok tt) (Ok tt) (Ok tt).

(** C1, as the code has it. With a non-empty target list, [pick_next_link]
    walks the targets in order and passes over every target that is visited
    or that no candidate bears; it returns the first candidate bearing the
    first target that is not passed over, and returns nothing exactly when
    every target is passed over.  The label returned is always a target. *)
Theorem pick_next_link_target_order
    (candidates : list WebElement) (visited : gset string)
    (targets : list string) :
  targets <> [] ->
  Forall stale_or_read candidates ->
  let available := omap readable candidates in
  (forall e l,
      pick_next_link candidates visited (Some targets) = Ok (Some (e, l)) <->
      exists before after,
        targets = before ++ l :: after
        /\ (forall t, t ∈ before -> passed_over available visited t)
        /\ (l ∉ visited)
        /\ exists pre post,
             available = pre ++ (e, l) :: post
             /\ forall p, p ∈ pre -> p.2 <> l)
  /\ (pick_next_link candidates visited (Some targets) = Ok None <->
      forall t, t ∈ targets -> passed_over available visited t).
Proof.
  intros Hne Hall available.
  rewrite (pick_next_link_available _ _ _ available)
    by (by apply collect_available_total).
  assert (Htruthy : targets_truthy (Some targets) = true)
    by (by destruct targets).
  rewrite Htruthy. change (default [] (Some targets)) with targets. split.
  - intros e l. split.
    + intros [= H]. apply scan_targets_Some in H
        as (before & after & Heq & Hb & Hl & Hf).
      apply find_target_Some in Hf as (_ & pre & post & Hav & Hpre).
      exists before, after. repeat split; try done. by exists pre, post.
    + intros (before & after & Heq & Hb & Hl & pre & post & Hav & Hpre).
      f_equal. apply scan_targets_Some. exists before, after.
      repeat split; try done. apply find_target_Some. split; [done|].
      by exists pre, post.
  - split.
    + intros [= H]. by apply scan_targets_None.
    + intros H. f_equal. by apply scan_targets_None.
Qed.

Lemma pick_next_link_target_order_witness :
  let candidates := [anchor "B" 1; anchor "C" 2] in
  let available := omap readable candidates in
  (forall e l,
      pick_next_link candidates ∅ (Some ["A"; "B"; "C"]) = Ok (Some (e, l)) <->
      exists before after,
        ["A"; "B"; "C"] = before ++ l :: after
        /\ (forall t, t ∈ before -> passed_over available ∅ t)
        /\ (l ∉ (∅ : gset string))
        /\ exists pre post,
             available = pre ++ (e, l) :: post
             /\ forall p, p ∈ pre -> p.2 <> l)
  /\ (pick_next_link candidates ∅ (Some ["A"; "B"; "C"]) = Ok None <->
      forall t, t ∈ ["A"; "B"; "C"] -> passed_over available ∅ t).
Proof.
  apply (pick_next_link_target_order [anchor "B" 1; anchor "C" 2] ∅
           ["A"; "B"; "C"]).
  - discriminate.
  - repeat constructor; intros x Hx; vm_compute in Hx; discriminate.
Defined.

(** C1, as stated, fails: with targets A, B, C, candidates B and C, and
    nothing visited, the head target A is unvisited and no candidate bears
    it, yet the selector goes on to B instead of returning nothing. *)
Lemma pick_next_link_skips_missing_head :
  let candidates := [anchor "B" 1; anchor "C" 2] in
  ("A" ∉ (∅ : gset string))
  /\ (forall e, e ∈ candidates -> extract_label e <> Ok "A")
  /\ pick_next_link candidates ∅ (Some ["A"; "B"; "C"])
     = Ok (Some (anchor "B" 1, "B"))
  /\ pick_next_link candidates ∅ (Some ["A"; "B"; "C"]) <> Ok None.
Proof.
  split; [set_solver|]. split.
  - intros e He. repeat (apply elem_of_cons in He as [->|He]);
      [vm_compute; discriminate ..|]. by apply elem_of_nil in He.
  - split; [by vm_compute|]. by vm_compute.
Qed.

(** C2. Whatever the candidates, the visited set and the target list, a
    label returned by [pick_next_link] is not visited; when a non-empty
    target list is given it is one of the targets.  The pair returned is a
    candidate with its own label. *)
Theorem pick_next_link_sound
    (candidates : list WebElement) (visited : gset string)
    (targets : option (list string)) (e : WebElement) (l : string) :
  pick_next_link candidates visited targets = Ok (Some (e, l)) ->
  (l ∉ visited)
  /\ (forall ts, targets = Some ts -> ts <> [] -> l ∈ ts)
  /\ e ∈ candidates
  /\ extract_label e = Ok l.
Proof.
  intros Hp. destruct (pick_next_link_Ok _ _ _ _ Hp) as [available Hav].
  rewrite (pick_next_link_available _ _ _ _ Hav) in Hp. injection Hp as Hp.
  destruct (targets_truthy targets) eqn:Ht.
  - apply scan_targets_Some in Hp as (before & after & Heq & Hb & Hl & Hf).
    apply find_target_Some in Hf as (_ & pre & post & -> & _).
    split; [done|]. split.
    + intros ts -> _. simpl in Heq. rewrite Heq. set_solver.
    + eapply collect_available_elem; [done|]. set_solver.
  - apply first_unvisited_Some in Hp as (pre & post & -> & _ & Hl).
    split; [done|]. split.
    + intros ts -> Hne. by destruct ts.
    + eapply collect_available_elem; [done|]. set_solver.
Qed.

Lemma pick_next_link_sound_witness :
  ("B" ∉ (∅ : gset string))
  /\ (forall ts, Some ["A"; "B"; "C"] = Some ts -> ts <> [] -> "B" ∈ ts)
  /\ anchor "B" 1 ∈ [anchor "B" 1; anchor "C" 2]
  /\ extract_label (anchor "B" 1) = Ok "B".
Proof.
  apply (pick_next_link_sound [anchor "B" 1; anchor "C" 2] ∅
           (Some ["A"; "B"; "C"]) (anchor "B" 1) "B").
  vm_compute. reflexivity.
Defined.

(** C3. Without a target list (absent or empty), [pick_next_link] returns
    the first candidate, in discovery order, whose label is not visited,
    and returns nothing exactly when the label of every candidate is
    visited; the candidates are those whose label can be read, the stale
    ones being left out.  So candidates labelled X and Y, with X visited,
    give the candidate labelled Y. *)
Theorem pick_next_link_discovery_order
    (candidates : list WebElement) (visited : gset string)
    (targets : option (list string)) :
  targets = None \/ targets = Some [] ->
  Forall stale_or_read candidates ->
  let available := omap readable candidates in
  (forall e l,
      pick_next_link candidates visited targets = Ok (Some (e, l)) <->
      exists pre post,
        available = pre ++ (e, l) :: post
        /\ (forall p, p ∈ pre -> p.2 ∈ visited)
        /\ (l ∉ visited))
  /\ (pick_next_link candidates visited targets = Ok None <->
      forall p, p ∈ available -> p.2 ∈ visited)
  /\ (forall x y,
        candidates = [x; y] ->
        extract_label x = Ok "X" -> extract_label y = Ok "Y" ->
        visited = {[ "X" ]} ->
        pick_next_link candidates visited targets = Ok (Some (y, "Y"))).
Proof.
  intros Hnone Hall available.
  assert (Hpick : pick_next_link candidates visited targets
                  = Ok (first_unvisited available visited)).
  { rewrite (pick_next_link_available _ _ _ available)
      by (by apply collect_available_total).
    by destruct Hnone as [-> | ->]. }
  rewrite Hpick. split; [|split].
  - intros e l. rewrite <- first_unvisited_Some. split; congruence.
  - rewrite <- first_unvisited_None. split; congruence.
  - intros x y -> Hx Hy ->. f_equal. subst available. simpl.
    unfold readable. rewrite Hx, Hy. simpl.
    rewrite decide_True by set_solver.
    rewrite decide_False; [done|]. set_solver.
Qed.

Lemma pick_next_link_discovery_order_witness :
  pick_next_link [anchor "X" 1; anchor "Y" 2] {[ "X" ]} None
  = Ok (Some (anchor "Y" 2, "Y")).
Proof.
  assert (Hall : Forall stale_or_read [anchor "X" 1; anchor "Y" 2])
    by (repeat constructor; intros x Hx; vm_compute in Hx; discriminate).
  apply (proj2 (proj2 (pick_next_link_discovery_order
                         [anchor "X" 1; anchor "Y" 2] {[ "X" ]} None
                         (or_introl eq_refl) Hall))
           (anchor "X" 1) (anchor "Y" 2)); reflexivity.
Defined.

(** ** Target list normalization *)

Definition blank (item : string) : Prop := PyStr.strip item = "".

#[local] Instance blank_dec (item : string) : Decision (blank item).
Proof. unfold blank. apply _. Defined.

Lemma normalize_target_texts_cleaned (items : list string) :
  normalize_target_texts (Some items) =
  match map PyStr.strip (filter (fun item => ~ blank item) items) with
  | [] => None
  | cleaned => Some cleaned
  end.
Proof.
  assert (Hf : filter (fun item => PyStr.truthy (PyStr.strip item) = true) items
               = filter (fun item => ~ blank item) items).
  { apply list_filter_iff. intros item. apply truthy_true. }
  unfold normalize_target_texts. rewrite Hf.
  destruct items as [|i rest]; [done|].
  by destruct (map PyStr.strip (filter (fun item => ~ blank item) (i :: rest))).
Qed.



(** ** Click executor *)

(** What [click_element] does once the scroll has gone through. *)
Lemma click_element_scrolled (e : WebElement) (s : Session) :
  el_scroll e = Ok tt ->
  let attempted :=
    trace s ++ [EvScrollIntoView (el_id e); EvNativeClick (el_id e)] in
  (el_click e = Ok tt ->
   click_element e s = (Ok tt, mkSession (clock s) attempted))
  /\ (forall x,
        el_click e = Raise x ->
        click_element e s =
        (el_script_click e,
         mkSession (clock s) (attempted ++ [EvScriptClick (el_id e)]))).
Proof.
  intros Hs attempted. split.
  - intros Hc. unfold click_element, bind, try_except, emit, lift.
    simpl. rewrite Hs, Hc. subst attempted. simpl.
    by rewrite <- app_assoc.
  - intros x Hc. unfold click_element, bind, try_except, emit, lift.
    simpl. rewrite Hs, Hc. subst attempted. simpl.
    rewrite <- !app_assoc. simpl. by destruct (el_script_click e) as [[]|].
Qed.

(** An exception of the scroll script leaves [click_element] at once. *)
Lemma click_element_unscrolled (e : WebElement) (s : Session) (x : exn) :
  el_scroll e = Raise x ->
  click_element e s
  = (Raise x, mkSession (clock s) (trace s ++ [EvScrollIntoView (el_id e)])).
Proof.
  intros Hs. unfold click_element, bind, try_except, emit, lift.
  simpl. by rewrite Hs.
Qed.

(** C6, as the code has it.  [click_element] first runs the scroll script,
    outside any handler: when the scroll raises, that exception leaves the
    function and no click is tried.  When the scroll goes through, it tries
    the native click; if that succeeds it returns, and if that raises,
    whatever the exception, it runs the script click on the same element
    and ends as the script click ends.  So [click_element] raises exactly
    when the scroll raised, or when the native click raised and the script
    click raised too; an exception of the native click never leaves it. *)
Theorem click_element_outcome (e : WebElement) (s : Session) :
  let scrolled := trace s ++ [EvScrollIntoView (el_id e)] in
  let attempted :=
    trace s ++ [EvScrollIntoView (el_id e); EvNativeClick (el_id e)] in
  (forall x,
      el_scroll e = Raise x ->
      click_element e s = (Raise x, mkSession (clock s) scrolled))
  /\ (el_scroll e = Ok tt -> el_click e = Ok tt ->
      click_element e s = (Ok tt, mkSession (clock s) attempted))
  /\ (forall x,
        el_scroll e = Ok tt -> el_click e = Raise x ->
        click_element e s =
        (el_script_click e,
         mkSession (clock s) (attempted ++ [EvScriptClick (el_id e)])))
  /\ (forall y,
        (click_element e s).1 = Raise y <->
        el_scroll e = Raise y
        \/ (el_scroll e = Ok tt
            /\ (exists x, el_click e = Raise x)
            /\ el_script_click e = Raise y)).
Proof.
  cbv zeta. split; [apply click_element_unscrolled|].
  split; [intros Hs; by apply click_element_scrolled|].
  split; [intros x Hs; by apply click_element_scrolled|].
  intros y. destruct (el_scroll e) as [[]|z] eqn:Hs.
  - destruct (click_element_scrolled e s Hs) as [Hok Hfall].
    destruct (el_click e) as [[]|x] eqn:Hc.
    + rewrite Hok by done. simpl. split; [done|].
      intros [H|(_ & [x Hx] & _)]; done.
    + rewrite (Hfall x) by done. simpl. split.
      * intros Hy. right. split; [done|]. split; [by eexists|done].
      * intros [H|(_ & _ & H)]; done.
  - rewrite (click_element_unscrolled e s z Hs). simpl. split.
    + intros [= ->]. by left.
    + intros [[= ->]|(H & _)]; done.
Qed.

(** A link that is gone from the page when the scroll script runs, though
    both clicks would answer. *)
Definition vanished : WebElement :=
  mkElement (Ok "Report Q1") (Ok None) (Ok None) (Ok "a") 4
    (Raise StaleElementReferenceException) (Ok tt) (Ok tt).

(** C6, as stated, fails: the scroll is not guarded, so an exception
    leaves [click_element] although the script click did not fail; no
    click was tried at all. *)
Lemma click_element_scroll_propagates :
  el_click vanished = Ok tt
  /\ el_script_click vanished = Ok tt
  /\ click_element vanished (mkSession 0 [])
     = (Raise StaleElementReferenceException,
        mkSession 0 [EvScrollIntoView 4]).
Proof. by vm_compute. Qed.

(** A link whose native click is intercepted by an overlay. *)
Definition covered : WebElement :=
  mkElement (Ok "Report Q1") (Ok None) (Ok None) (Ok "a") 3
    (Ok tt) (Raise WebDriverException) (Ok tt).

(** ** Locator kinds *)

Lemma mapping_keys_NoDup : NoDup mapping.*1.
Proof. refine (bool_decide_unpack (NoDup mapping.*1) _). by vm_compute. Qed.

Lemma map_by_Ok (by_value : string) (b : By) :
  map_by by_value = Ok b <-> (by_value, b) ∈ mapping.
Proof.
  unfold map_by, mapping_dict.
  rewrite (elem_of_list_to_map (M := gmap string))
    by apply mapping_keys_NoDup.
  destruct (list_to_map mapping !! by_value) as [b'|]; split; congruence.
Qed.

(** The names Selenium gives the locator strategies. *)
Definition supported_kinds : list string :=
  [ "css selector"; "xpath"; "id"; "name"; "class name"; "tag name";
    "link text"; "partial link text" ].

(** The spellings [map_by] accepts, each with the name of its kind. *)
Definition spellings : list (string * string) :=
  [ ("css", "css selector"); ("css_selector", "css selector");
    ("xpath", "xpath"); ("id", "id"); ("name", "name");
    ("class", "class name"); ("class_name", "class name");
    ("tag", "tag name"); ("tag_name", "tag name");
    ("link_text", "link text"); ("partial_link_text", "partial link text") ].

Lemma map_by_raises (by_value : string) :
  by_value ∉ mapping.*1 ->
  map_by by_value
  = Raise (ValueError ("Unsupported locator type: " ++ by_value)%string).
Proof.
  intros Hnot. unfold map_by, mapping_dict.
  destruct (list_to_map mapping !! by_value) as [b|] eqn:Hl; [|done].
  exfalso. apply Hnot. apply elem_of_list_to_map_2 in Hl.
  apply list_elem_of_fmap. by exists (by_value, b).
Qed.

(** C8, as the code has it.  [map_by] answers exactly on eleven spellings:
    css, css_selector, xpath, id, name, class, class_name, tag, tag_name,
    link_text and partial_link_text, each standing for the kind the table
    gives, and every one of the eight kinds has a spelling.  Any other
    string raises the unsupported-locator [ValueError]; of the names of
    the kinds themselves only xpath, id and name are spellings, so
    "css selector", "class name", "tag name", "link text" and
    "partial link text" are refused.  In [trigger_export] the error leaves
    the session as it was: no wait and no click has happened. *)
Theorem map_by_spellings :
  (forall by_value b, map_by by_value = Ok b <-> (by_value, b) ∈ mapping)
  /\ (forall by_value kind,
        (exists b, map_by by_value = Ok b /\ By_value b = kind) <->
        (by_value, kind) ∈ spellings)
  /\ (forall kind, kind ∈ supported_kinds ->
        exists by_value b, map_by by_value = Ok b /\ By_value b = kind)
  /\ (forall by_value,
        by_value ∉ mapping.*1 ->
        map_by by_value
        = Raise (ValueError ("Unsupported locator type: " ++ by_value)%string))
  /\ (forall kind, kind ∈ supported_kinds ->
        (exists b, map_by kind = Ok b) <-> kind ∈ ["xpath"; "id"; "name"])
  /\ (forall driver locator_config timeout s value,
        locator_config !! "value" = Some value ->
        let by_ := PyStr.lower (default "css" (locator_config !! "by")) in
        by_ ∉ mapping.*1 ->
        trigger_export driver locator_config timeout s
        = (Raise (ValueError ("Unsupported locator type: " ++ by_)%string), s))
  /\ (forall driver locator_config timeout s,
        PyStr.lower (default "css" (locator_config !! "by")) ∉ mapping.*1 ->
        exists x, trigger_export driver locator_config timeout s = (Raise x, s)).
Proof.
  split; [apply map_by_Ok|].
  split; [|split; [|split; [apply map_by_raises|split; [|split]]]].
  - intros by_value kind. split.
    + intros (b & Hb & <-). apply map_by_Ok in Hb. unfold mapping in Hb.
      repeat (apply elem_of_cons in Hb as [[= -> ->]|Hb]);
        try (apply list_elem_of_In; simpl; tauto).
      by apply elem_of_nil in Hb.
    + intros Hin. unfold spellings in Hin.
      repeat (apply elem_of_cons in Hin as [[= -> ->]|Hin]);
        try (eexists; split; [by vm_compute|reflexivity]).
      by apply elem_of_nil in Hin.
  - intros kind Hk. unfold supported_kinds in Hk.
    repeat (apply elem_of_cons in Hk as [->|Hk]);
      [ by exists "css", CSS_SELECTOR | by exists "xpath", XPATH
      | by exists "id", ID | by exists "name", NAME
      | by exists "class", CLASS_NAME | by exists "tag", TAG_NAME
      | by exists "link_text", LINK_TEXT
      | by exists "partial_link_text", PARTIAL_LINK_TEXT | ].
    by apply elem_of_nil in Hk.
  - intros kind Hk. unfold supported_kinds in Hk.
    repeat (apply elem_of_cons in Hk as [->|Hk]);
      try (by apply elem_of_nil in Hk);
      try (split; [intros _; apply list_elem_of_In; simpl; tauto
                  |intros _; eexists; by vm_compute]);
      (split; [intros [b Hb]; by vm_compute in Hb
              |intros Hin; exfalso;
               repeat (apply elem_of_cons in Hin as [Hin|Hin]);
               try discriminate; by apply elem_of_nil in Hin]).
  - intros driver locator_config timeout s value Hv by_ Hnot.
    unfold trigger_export, bind, lift. rewrite Hv. fold by_.
    by rewrite (map_by_raises by_ Hnot).
  - intros driver locator_config timeout s Hnot.
    unfold trigger_export, bind, lift.
    destruct (locator_config !! "value") as [value|]; [|by eexists].
    rewrite (map_by_raises _ Hnot). by eexists.
Qed.

(** C8, as stated, fails: "css selector" is one of the eight kinds the
    export control may be located by, yet [map_by] refuses that string, as
    it refuses "class name", "tag name", "link text" and
    "partial link text". *)
Lemma map_by_refuses_kind_names :
  "css selector" ∈ supported_kinds
  /\ map_by "css selector"
     = Raise (ValueError "Unsupported locator type: css selector")
  /\ map_by "class name"
     = Raise (ValueError "Unsupported locator type: class name")
  /\ map_by "tag name"
     = Raise (ValueError "Unsupported locator type: tag name")
  /\ map_by "link text"
     = Raise (ValueError "Unsupported locator type: link text")
  /\ map_by "partial link text"
     = Raise (ValueError "Unsupported locator type: partial link text").
Proof.
  split; [apply list_elem_of_In; simpl; tauto|].
  repeat split; by vm_compute.
Qed.

(** ** Download waiter *)

(** The loop of [wait_for_downloads], one turn at a time. *)
Lemma wait_loop_turn (target_dir : Directory) (deadline : Z) (s : Session) :
  wait_loop target_dir deadline s =
  if decide (clock s < deadline) then
    let polled := mkSession (clock s) (trace s ++ [EvGlob (clock s)]) in
    if any_crdownload target_dir (clock s)
    then wait_loop target_dir deadline
           (mkSession (clock s + 1) (trace polled ++ [EvSleep 1]))
    else (Ok tt, polled)
  else (Raise TimeoutException, s).
Proof.
  simp wait_loop.
  destruct (Z_lt_dec (clock s) deadline) as [Hlt|Hge]; simpl.
  - by rewrite decide_True.
  - by rewrite decide_False.
Qed.

(** [n] polls, one second apart, each of which found a marker. *)
Fixpoint polls (start : Z) (n : nat) : list Event :=
  match n with
  | O => []
  | S n' => EvGlob start :: EvSleep 1 :: polls (start + 1) n'
  end.

Lemma wait_loop_returns (target_dir : Directory) (deadline : Z) (n : nat) :
  forall s,
    clock s + Z.of_nat n < deadline ->
    (forall j, 0 <= j < Z.of_nat n -> any_crdownload target_dir (clock s + j) = true) ->
    any_crdownload target_dir (clock s + Z.of_nat n) = false ->
    wait_loop target_dir deadline s =
    (Ok tt,
     mkSession (clock s + Z.of_nat n)
       (trace s ++ polls (clock s) n ++ [EvGlob (clock s + Z.of_nat n)])).
Proof.
  induction n as [|n IH]; intros s Hlt Hbusy Hfree.
  - rewrite wait_loop_turn. rewrite decide_True by lia.
    change (Z.of_nat 0) with 0 in *. rewrite Z.add_0_r in *.
    cbv zeta. by rewrite Hfree.
  - rewrite wait_loop_turn. rewrite decide_True by lia. cbv zeta.
    assert (Hnow : any_crdownload target_dir (clock s) = true).
    { rewrite <- (Z.add_0_r (clock s)). apply Hbusy. lia. }
    rewrite Hnow. rewrite IH; cbn [clock trace].
    + replace (clock s + 1 + Z.of_nat n) with (clock s + Z.of_nat (S n)) by lia.
      cbn [polls]. by rewrite <- !app_assoc.
    + lia.
    + intros j Hj. replace (clock s + 1 + j) with (clock s + (1 + j)) by lia.
      apply Hbusy. lia.
    + replace (clock s + 1 + Z.of_nat n) with (clock s + Z.of_nat (S n)) by lia.
      done.
Qed.

Lemma wait_loop_times_out (target_dir : Directory) (deadline : Z) (n : nat) :
  forall s,
    deadline <= clock s + Z.of_nat n ->
    (n = O \/ clock s + Z.of_nat n - 1 < deadline) ->
    (forall j, 0 <= j < Z.of_nat n -> any_crdownload target_dir (clock s + j) = true) ->
    wait_loop target_dir deadline s =
    (Raise TimeoutException,
     mkSession (clock s + Z.of_nat n) (trace s ++ polls (clock s) n)).
Proof.
  induction n as [|n IH]; intros s Hle Hn Hbusy.
  - rewrite wait_loop_turn. rewrite decide_False by lia.
    change (Z.of_nat 0) with 0. rewrite Z.add_0_r. cbn [polls].
    rewrite app_nil_r. by destruct s.
  - rewrite wait_loop_turn. rewrite decide_True by lia. cbv zeta.
    assert (Hnow : any_crdownload target_dir (clock s) = true).
    { rewrite <- (Z.add_0_r (clock s)). apply Hbusy. lia. }
    rewrite Hnow. rewrite IH; cbn [clock trace].
    + replace (clock s + 1 + Z.of_nat n) with (clock s + Z.of_nat (S n)) by lia.
      cbn [polls]. by rewrite <- !app_assoc.
    + lia.
    + destruct n; [by left|right; lia].
    + intros j Hj. replace (clock s + 1 + j) with (clock s + (1 + j)) by lia.
      apply Hbusy. lia.
Qed.

(** C7. With a positive timeout, [wait_for_downloads] looks at the
    directory once a second, starting at once.  It returns at the first
    look that finds no [.crdownload] file, at the very first one when the
    directory has none, and it raises [TimeoutException] when every look
    before the deadline finds one.  So a marker that is gone after 2
    seconds lets a 5-second wait return, and a marker that stays makes a
    2-second wait raise. *)
Theorem wait_for_downloads_polls
    (target_dir : Directory) (timeout : Z) (s : Session) :
  0 < timeout ->
  (forall k,
      0 <= k < timeout ->
      (forall j, 0 <= j < k -> any_crdownload target_dir (clock s + j) = true) ->
      any_crdownload target_dir (clock s + k) = false ->
      wait_for_downloads target_dir timeout s =
      (Ok tt,
       mkSession (clock s + k)
         (trace s ++ polls (clock s) (Z.to_nat k) ++ [EvGlob (clock s + k)])))
  /\ ((forall j, 0 <= j < timeout ->
         any_crdownload target_dir (clock s + j) = true) ->
      wait_for_downloads target_dir timeout s =
      (Raise TimeoutException,
       mkSession (clock s + timeout)
         (trace s ++ polls (clock s) (Z.to_nat timeout))))
  /\ (timeout = 5 ->
      (forall t, any_crdownload target_dir t = true <-> t < clock s + 2) ->
      (wait_for_downloads target_dir timeout s).1 = Ok tt)
  /\ (timeout = 2 ->
      (forall t, any_crdownload target_dir t = true) ->
      (wait_for_downloads target_dir timeout s).1 = Raise TimeoutException).
Proof.
  intros Hpos.
  assert (Hret : forall k,
      0 <= k < timeout ->
      (forall j, 0 <= j < k -> any_crdownload target_dir (clock s + j) = true) ->
      any_crdownload target_dir (clock s + k) = false ->
      wait_for_downloads target_dir timeout s =
      (Ok tt,
       mkSession (clock s + k)
         (trace s ++ polls (clock s) (Z.to_nat k) ++ [EvGlob (clock s + k)]))).
  { intros k Hk Hbusy Hfree. unfold wait_for_downloads.
    rewrite (wait_loop_returns _ _ (Z.to_nat k)); rewrite ?Z2Nat.id by lia;
      try done; lia. }
  assert (Hout : (forall j, 0 <= j < timeout ->
                    any_crdownload target_dir (clock s + j) = true) ->
      wait_for_downloads target_dir timeout s =
      (Raise TimeoutException,
       mkSession (clock s + timeout)
         (trace s ++ polls (clock s) (Z.to_nat timeout)))).
  { intros Hbusy. unfold wait_for_downloads.
    rewrite (wait_loop_times_out _ _ (Z.to_nat timeout));
      rewrite ?Z2Nat.id by lia; try done; lia. }
  split; [done|]. split; [done|]. split.
  - intros -> Hdir. rewrite (Hret 2); [done|lia| |].
    + intros j Hj. apply Hdir. lia.
    + destruct (any_crdownload target_dir (clock s + 2)) eqn:Ha; [|done].
      apply Hdir in Ha. lia.
  - intros -> Hdir. rewrite Hout; [done|]. intros j _. apply Hdir.
Qed.

(** A download that is under way for two seconds, and one that never ends. *)
Definition two_seconds : Directory :=
  fun t => if t <? 2 then ["report.csv.crdownload"] else ["report.csv"].
Definition never_ends : Directory :=
  fun _ => ["report.csv.crdownload"].

Lemma wait_for_downloads_polls_witness :
  (wait_for_downloads two_seconds 5 (mkSession 0 [])).1 = Ok tt
  /\ (wait_for_downloads never_ends 2 (mkSession 0 [])).1
     = Raise TimeoutException.
Proof.
  split.
  - apply (proj1 (proj2 (proj2
             (wait_for_downloads_polls two_seconds 5 (mkSession 0 [])
                ltac:(lia)))) eq_refl).
    intros t. unfold two_seconds, any_crdownload. simpl.
    destruct (t <? 2) eqn:Ht; simpl; split; intros; try done; lia.
  - apply (proj2 (proj2 (proj2
             (wait_for_downloads_polls never_ends 2 (mkSession 0 [])
                ltac:(lia)))) eq_refl).
    intros t. reflexivity.
Defined.

(** C10. With a timeout of zero or less, [wait_for_downloads] raises
    [TimeoutException] at once, whatever the directory holds, without
    looking at it; the loop of [run_automation] makes the call only when
    the configured wait is positive, and moves on otherwise. *)
Theorem wait_for_downloads_nonpositive
    (target_dir : Directory) (timeout : Z) (s : Session) :
  timeout <= 0 ->
  wait_for_downloads target_dir timeout s = (Raise TimeoutException, s)
  /\ (forall config world l label,
        download_wait config = timeout ->
        stage l = WAITING_DOWNLOAD label ->
        step config world l
        = mkLoop (RETURNING label) (visited_labels l) (iteration l) (session l)).
Proof.
  intros Hle. split.
  - unfold wait_for_downloads. rewrite wait_loop_turn.
    by rewrite decide_False by (simpl; lia).
  - intros config world l label Hw Hst. unfold step. rewrite Hst.
    unfold advance. rewrite Hw.
    assert (H0 : (0 <? timeout) = false) by lia. by rewrite H0.
Qed.

Lemma wait_for_downloads_nonpositive_witness :
  wait_for_downloads (fun _ => []) 0 (mkSession 7 [])
  = (Raise TimeoutException, mkSession 7 []).
Proof.
  apply (wait_for_downloads_nonpositive (fun _ => []) 0 (mkSession 7 [])).
  lia.
Defined.

(** ** Traversal loop *)

(** The label whose cycle is past its click. *)
Definition clicked (st : Stage) : option string :=
  match st with
  | WAITING_CONTENT label | EXPORTING label
  | WAITING_DOWNLOAD label | RETURNING label => Some label
  | _ => None
  end.

Section Loop_properties.

Variable config : Config.
Variable world : World.

Ltac run_stage :=
  match goal with
  | |- context [match ?m ?s with _ => _ end] =>
      destruct (m s) as [[?a|?x] ?s'] eqn:?Hrun
  end.

(** No stage takes a label out of the visited set. *)
Lemma step_visited_mono (l : Loop) :
  visited_labels l ⊆ visited_labels (step config world l).
Proof.
  unfold step, advance.
  destruct (stage l) eqn:Hst; try done; run_stage; simpl; try done.
  - by destruct a as [[e lab]|].
  - set_solver.
Qed.

Lemma steps_visited_mono (n : nat) (l : Loop) :
  visited_labels l ⊆ visited_labels (steps config world n l).
Proof.
  revert l. induction n as [|n IH]; intros l; simpl; [done|].
  etrans; [apply step_visited_mono|apply IH].
Qed.

(** Past the click, the label of the cycle is in the visited set. *)
Definition recorded (l : Loop) : Prop :=
  forall label, clicked (stage l) = Some label -> label ∈ visited_labels l.

Lemma step_recorded (l : Loop) : recorded l -> recorded (step config world l).
Proof.
  intros Hrec label. unfold step.
  destruct (stage l) eqn:Hst; unfold advance;
    try (rewrite Hst; done); run_stage; simpl; try done.
  - by destruct a as [[e lab]|].
  - intros [= <-]. set_solver.
  - intros [= <-]. apply Hrec. by rewrite Hst.
  - intros [= <-]. apply Hrec. by rewrite Hst.
  - intros [= <-]. apply Hrec. by rewrite Hst.
Qed.

Lemma steps_recorded (n : nat) (l : Loop) :
  recorded l -> recorded (steps config world n l).
Proof.
  revert l. induction n as [|n IH]; intros l Hl; simpl; [done|].
  apply IH. by apply step_recorded.
Qed.

(** C5. When the click of a cycle succeeds, the loop adds the label to
    the visited set in that very stage, before the content wait, the
    export and the download wait run: the next stage is the content wait,
    the session holds the events of the click and nothing more, and the
    label stays in the visited set whatever the later stages do, a fatal
    failure included.  When the click raises, nothing is added.  In every
    state the loop reaches, a cycle that is past its click has its label
    in the visited set, and no stage removes a label. *)
Theorem visited_after_click (l : Loop) (e : WebElement) (label : string) :
  stage l = CLICKING e label ->
  (click_element e (session l)).1 = Ok tt ->
  stage (step config world l) = WAITING_CONTENT label
  /\ visited_labels (step config world l) = {[ label ]} ∪ visited_labels l
  /\ session (step config world l) = (click_element e (session l)).2
  /\ (forall n, label ∈ visited_labels (steps config world (S n) l))
  /\ (forall l' e' label' x,
        stage l' = CLICKING e' label' ->
        (click_element e' (session l')).1 = Raise x ->
        stage (step config world l') = ABORTED x
        /\ visited_labels (step config world l') = visited_labels l')
  /\ (forall n s, recorded (steps config world n (loop_entry s)))
  /\ (forall n l',
        visited_labels l' ⊆ visited_labels (steps config world n l')).
Proof.
  intros Hst Hclick.
  assert (Hstep : step config world l
                  = mkLoop (WAITING_CONTENT label)
                      ({[ label ]} ∪ visited_labels l) (iteration l)
                      (click_element e (session l)).2).
  { unfold step. rewrite Hst. unfold advance.
    destruct (click_element e (session l)) as [[[]|x] s']; [done|].
    simpl in Hclick. congruence. }
  rewrite Hstep. simpl. split; [done|]. split; [done|]. split; [done|].
  split; [|split; [|split]].
  - intros n. rewrite Hstep. eapply steps_visited_mono. simpl. set_solver.
  - intros l' e' label' x Hst' Hfail. unfold step. rewrite Hst'.
    unfold advance.
    destruct (click_element e' (session l')) as [[[]|y] s']; simpl in *;
      [done|]. by injection Hfail as ->.
  - intros n s. apply steps_recorded. by intros lab.
  - intros n l'. apply steps_visited_mono.
Qed.

End Loop_properties.

(** A run whose export control never becomes clickable. *)
Definition no_export : World :=
  mkWorld
    (fun _ =>
       mkBrowser (fun _ => Ok [covered])
         (fun _ _ _ => Raise TimeoutException) (Ok tt) (fun _ => Ok tt))
    (fun _ => []).

Definition plain_config : Config :=
  mkConfig "http://localhost/list" "a.item" {[ "value" := "#export" ]}
    None None (Some 0) None None None.

Definition at_click : Loop :=
  mkLoop (CLICKING covered "Report Q1") ∅ 1 (mkSession 0 []).

Lemma visited_after_click_witness :
  stage (steps plain_config no_export 3 at_click) = ABORTED TimeoutException
  /\ "Report Q1" ∈ visited_labels (steps plain_config no_export 3 at_click).
Proof.
  split; [reflexivity|].
  apply (proj1 (proj2 (proj2 (proj2
           (visited_after_click plain_config no_export at_click covered
              "Report Q1" eq_refl eq_refl)))) 2%nat).
Defined.


(** * Further properties of the engine *)

From Stdlib Require Import DecimalN DecimalPos.

(** ** Label extractor: errors and the synthesized label *)

(** [extract_label] raises what the first failing read raises, and a read
    happens only when every signal before it is empty: a text that is not
    blank hides a stale [href], and so on down the chain. *)
Theorem extract_label_raises (e : WebElement) (x : exn) :
  extract_label e = Raise x <->
  el_text e = Raise x
  \/ exists raw,
       el_text e = Ok raw /\ blank raw
       /\ (el_href e = Raise x
           \/ exists href,
                el_href e = Ok href /\ PyStr.truthy_opt href = false
                /\ (el_data_id e = Raise x
                    \/ exists data_id,
                         el_data_id e = Ok data_id
                         /\ PyStr.truthy_opt data_id = false
                         /\ el_tag_name e = Raise x)).
Proof.
  unfold extract_label, blank.
  destruct (el_text e) as [raw|x0]; cbn [mbind res_mbind res_bind].
  2: { split; [intros [= ->]; by left|]. intros [H|(raw & H & _)]; congruence. }
  destruct (PyStr.truthy (PyStr.strip raw)) eqn:Ht.
  { split; [done|]. intros [H|(raw' & [= <-] & Hb & _)]; [done|].
    apply truthy_false in Hb. congruence. }
  apply truthy_false in Ht.
  destruct (el_href e) as [href|x0]; cbn [mbind res_mbind res_bind].
  2: { split.
       - intros [= ->]. right. exists raw. split; [done|]. split; [done|].
         by left.
       - intros [H|(raw' & _ & _ & [H|(href & H & _)])]; congruence. }
  destruct (PyStr.truthy_opt href) eqn:Hh.
  { split; [done|].
    intros [H|(raw' & _ & _ & [H|(href' & [= <-] & Hf & _)])]; congruence. }
  destruct (el_data_id e) as [data_id|x0]; cbn [mbind res_mbind res_bind].
  2: { split.
       - intros [= ->]. right. exists raw. split; [done|]. split; [done|].
         right. exists href. split; [done|]. split; [done|]. by left.
       - intros [H|(raw' & _ & _ & [H|(href' & _ & _ & [H|(d & H & _)])])];
           congruence. }
  destruct (PyStr.truthy_opt data_id) eqn:Hd.
  { split; [done|].
    intros [H|(raw' & _ & _ & [H|(href' & _ & _ & [H|(d & [= <-] & Hf & _)])])];
      congruence. }
  destruct (el_tag_name e) as [tag|x0]; cbn [mbind res_mbind res_bind].
  - split; [done|].
    intros [H|(raw' & _ & _ & [H|(href' & _ & _ & [H|(d & _ & _ & H)])])];
      congruence.
  - split.
    + intros [= ->]. right. exists raw. split; [done|]. split; [done|].
      right. exists href. split; [done|]. split; [done|].
      right. by exists data_id.
    + intros [H|(raw' & _ & _ & [H|(href' & _ & _ & [H|(d & _ & _ & H)])])];
        congruence.
Qed.

(** An element with no text, no [href] and no [data-id] to show. *)
Definition anonymous (e : WebElement) : Prop :=
  exists raw href data_id tag,
    el_text e = Ok raw /\ blank raw
    /\ el_href e = Ok href /\ PyStr.truthy_opt href = false
    /\ el_data_id e = Ok data_id /\ PyStr.truthy_opt data_id = false
    /\ el_tag_name e = Ok tag.

Lemma append_inj_l (p a b : string) :
  (p ++ a)%string = (p ++ b)%string -> a = b.
Proof. induction p as [|c p IH]; simpl; [done|]. intros [= H]. by apply IH. Qed.

Lemma of_N_inj (n m : N) : PyStr.of_N n = PyStr.of_N m -> n = m.
Proof.
  unfold PyStr.of_N. intros H.
  assert (Hn : forall k, N.to_uint k <> Decimal.Nil).
  { intros [|p]; [done|]. apply DecimalPos.Unsigned.to_uint_nonnil. }
  apply DecimalN.Unsigned.to_uint_inj.
  assert (Hs : Some (N.to_uint n) = Some (N.to_uint m)); [|congruence].
  rewrite <- (NilZero.usu (N.to_uint n)), <- (NilZero.usu (N.to_uint m)) by done.
  by rewrite H.
Qed.

(** No rendering of a number has a dash in it. *)
Lemma uint_of_string_dash (t d : string) :
  NilEmpty.uint_of_string (t ++ String "-" d)%string = None.
Proof.
  induction t as [|c t IH]; simpl.
  - by destruct (NilEmpty.uint_of_string d).
  - rewrite IH. by destruct c as [[] [] [] [] [] [] [] []].
Qed.

Lemma of_N_no_dash (n : N) (t d : string) :
  PyStr.of_N n <> (t ++ String "-" d)%string.
Proof.
  intros H.
  assert (Hn : N.to_uint n <> Decimal.Nil).
  { destruct n as [|p]; [done|]. apply DecimalPos.Unsigned.to_uint_nonnil. }
  pose proof (NilZero.usu _ Hn) as Hu. fold (PyStr.of_N n) in Hu.
  rewrite H in Hu. unfold NilZero.uint_of_string in Hu.
  rewrite uint_of_string_dash in Hu. by destruct (t ++ String "-" d)%string.
Qed.

Lemma synthesized_inj (tag1 tag2 : string) (n m : N) :
  (tag1 ++ "-" ++ PyStr.of_N n)%string = (tag2 ++ "-" ++ PyStr.of_N m)%string ->
  tag1 = tag2 /\ n = m.
Proof.
  revert tag2. induction tag1 as [|c t1 IH]; intros [|c2 t2]; simpl.
  - intros [= H]. split; [done|]. by apply of_N_inj.
  - intros [= <- H]. exfalso. by apply (of_N_no_dash n t2 (PyStr.of_N m)).
  - intros [= -> H]. exfalso. symmetry in H.
    by apply (of_N_no_dash m t1 (PyStr.of_N n)).
  - intros [= -> H]. destruct (IH _ H) as [-> ->]. done.
Qed.

(** Two anonymous elements of different identity never share a label: the
    synthesized label tells the identity number. *)
Theorem synthesized_label_distinct (e1 e2 : WebElement) :
  anonymous e1 -> anonymous e2 ->
  el_id e1 <> el_id e2 ->
  extract_label e1 <> extract_label e2.
Proof.
  intros (r1 & h1 & d1 & t1 & Hr1 & Hb1 & Hh1 & Hf1 & Hd1 & Hg1 & Ht1).
  intros (r2 & h2 & d2 & t2 & Hr2 & Hb2 & Hh2 & Hf2 & Hd2 & Hg2 & Ht2).
  intros Hid Heq. apply Hid. unfold extract_label, blank in *.
  rewrite Hr1, Hh1, Hd1, Ht1, Hr2, Hh2, Hd2, Ht2 in Heq.
  cbn [mbind res_mbind res_bind] in Heq.
  rewrite Hb1, Hb2, Hf1, Hf2, Hg1, Hg2 in Heq. cbn [PyStr.truthy] in Heq.
  injection Heq as Heq. by apply synthesized_inj in Heq as [_ ?].
Qed.

Definition bare (tag : string) (n : N) : WebElement :=
  mkElement (Ok "  ") (Ok None) (Ok (Some "")) (Ok tag) n (Ok tt) (Ok tt) (Ok tt).

Lemma bare_anonymous (tag : string) (n : N) : anonymous (bare tag n).
Proof. exists "  ", None, (Some ""), tag. by repeat split. Qed.

Lemma synthesized_label_distinct_witness :
  extract_label (bare "a" 11) <> extract_label (bare "a-1" 1).
Proof.
  apply synthesized_label_distinct;
    [apply bare_anonymous | apply bare_anonymous | discriminate].
Defined.

(** ** Link selector: errors *)

Lemma collect_available_Raise (candidates : list WebElement) (x : exn) :
  collect_available candidates = Raise x <->
  exists before e after,
    candidates = before ++ e :: after
    /\ Forall stale_or_read before
    /\ extract_label e = Raise x
    /\ x <> StaleElementReferenceException.
Proof.
  induction candidates as [|c rest IH]; simpl.
  - split; [done|]. intros (before & e & after & Heq & _). by destruct before.
  - destruct (extract_label c) as [l|y] eqn:Hc.
    + assert (Hsr : stale_or_read c) by (intros z Hz; congruence).
      destruct (collect_available rest) as [av|y] eqn:Hrest;
        cbn [mbind res_mbind res_bind].
      * split; [done|]. intros (before & e & after & Heq & Hb & He & Hx).
        destruct before as [|b before]; simplify_eq/=; [congruence|].
        apply Forall_cons in Hb as [_ Hb].
        assert (Ok av = Raise x); [|done].
        apply IH. by exists before, e, after.
      * split.
        -- intros [= ->]. destruct (proj1 IH eq_refl)
             as (before & e & after & -> & Hb & He & Hx).
           exists (c :: before), e, after. split; [done|].
           split; [by constructor|done].
        -- intros (before & e & after & Heq & Hb & He & Hx).
           destruct before as [|b before]; simplify_eq/=; [congruence|].
           apply Forall_cons in Hb as [_ Hb]. apply IH.
           by exists before, e, after.
    + destruct y.
      { rewrite IH. split.
        - intros (before & e & after & -> & Hb & He & Hx).
          exists (c :: before), e, after. split; [done|]. split; [|done].
          constructor; [|done]. intros z Hz. congruence.
        - intros (before & e & after & Heq & Hb & He & Hx).
          destruct before as [|b before]; simplify_eq/=; [congruence|].
          apply Forall_cons in Hb as [_ Hb]. by exists before, e, after. }
      all: split;
        [ intros [= <-]; exists [], c, rest; by repeat split
        | intros (before & e & after & Heq & Hb & He & Hx);
          destruct before as [|b before]; simplify_eq/=; [congruence|];
          apply Forall_cons in Hb as [Hb _]; by specialize (Hb _ Hc) ].
Qed.

(** [pick_next_link] reads the label of every candidate before it selects
    any.  It raises exactly when some read raises something other than a
    stale reference, and then it raises the first such exception, whatever
    the visited set and the target list; it never raises a stale reference
    itself. *)
Theorem pick_next_link_raises
    (candidates : list WebElement) (visited : gset string)
    (targets : option (list string)) (x : exn) :
  pick_next_link candidates visited targets = Raise x <->
  exists before e after,
    candidates = before ++ e :: after
    /\ Forall stale_or_read before
    /\ extract_label e = Raise x
    /\ x <> StaleElementReferenceException.
Proof.
  rewrite <- collect_available_Raise. unfold pick_next_link.
  destruct (collect_available candidates) as [av|y];
    cbn [mbind res_mbind res_bind]; [|split; congruence].
  split; [|discriminate].
  destruct av; [discriminate|]. by destruct (targets_truthy targets).
Qed.

(** The label [pick_next_link] returns is not visited, and it is one of the
    targets when there are targets. *)
Lemma pick_next_link_fresh
    (candidates : list WebElement) (visited : gset string)
    (targets : option (list string)) (e : WebElement) (l : string) :
  pick_next_link candidates visited targets = Ok (Some (e, l)) ->
  (l ∉ visited) /\ (targets_truthy targets = true -> l ∈ default [] targets).
Proof.
  intros Hp. destruct (pick_next_link_Ok _ _ _ _ Hp) as [available Hav].
  rewrite (pick_next_link_available _ _ _ _ Hav) in Hp. injection Hp as Hp.
  destruct (targets_truthy targets) eqn:Ht.
  - apply scan_targets_Some in Hp as (before & after & Heq & _ & Hl & _).
    split; [done|]. intros _. rewrite Heq. set_solver.
  - apply first_unvisited_Some in Hp as (pre & post & _ & _ & Hl). done.
Qed.

(** ** Target list normalization *)

Lemma normalize_target_texts_Some (raw : option (list string)) (ts : list string) :
  normalize_target_texts raw = Some ts ->
  targets_truthy (Some ts) = true
  /\ Forall (fun t => ~ blank t /\ PyStr.strip t = t) ts
  /\ exists items,
       raw = Some items /\ forall t, t ∈ ts -> exists item, item ∈ items /\ t = PyStr.strip item.
Proof.
  intros Hn. destruct raw as [items|]; [|done].
  rewrite normalize_target_texts_cleaned in Hn.
  destruct (map PyStr.strip (filter (fun item => ~ blank item) items))
    as [|c cs] eqn:Hm; [done|].
  injection Hn as <-. split; [done|]. rewrite <- Hm. split.
  - apply Forall_forall. intros t Ht.
    apply list_elem_of_fmap in Ht as (item & -> & Hitem).
    apply list_elem_of_filter in Hitem as [Hnb _].
    split; [|apply strip_idem]. unfold blank. by rewrite strip_idem.
  - exists items. split; [done|]. intros t Ht.
    apply list_elem_of_fmap in Ht as (item & -> & Hitem).
    apply list_elem_of_filter in Hitem as [_ Hin]. by exists item.
Qed.

(** Normalizing twice is normalizing once. *)
Theorem normalize_target_texts_idem (raw : option (list string)) :
  normalize_target_texts (normalize_target_texts raw)
  = normalize_target_texts raw.
Proof.
  destruct (normalize_target_texts raw) as [ts|] eqn:Hn; [|done].
  apply normalize_target_texts_Some in Hn as (Htruthy & Hts & _).
  rewrite normalize_target_texts_cleaned.
  assert (Hf : filter (fun item => ~ blank item) ts = ts).
  { clear -Hts. induction Hts as [|t ts [Ht _] _ IH]; [done|].
    rewrite filter_cons, decide_True by done. by rewrite IH. }
  assert (Hm : map PyStr.strip ts = ts).
  { clear -Hts. induction Hts as [|t ts [_ Ht] _ IH]; [done|].
    simpl. by rewrite Ht, IH. }
  rewrite Hf, Hm. by destruct ts.
Qed.

(** With the configured target list of a run, an element is selected only
    when its label is the stripped form of an entry of the list: a label
    with white space at an end, as an [href] may be, is never selected. *)
Theorem configured_target_label_is_stripped
    (config : Config) (candidates : list WebElement) (visited : gset string)
    (ts : list string) (e : WebElement) (l : string) :
  target_texts config = Some ts ->
  pick_next_link candidates visited (target_texts config) = Ok (Some (e, l)) ->
  PyStr.strip l = l
  /\ l <> ""
  /\ exists items item,
       link_text_targets config = Some items
       /\ item ∈ items /\ l = PyStr.strip item.
Proof.
  intros Hts Hp. rewrite Hts in Hp. unfold target_texts in Hts.
  apply normalize_target_texts_Some in Hts as (Htruthy & Hall & items & Hraw & Hfrom).
  apply pick_next_link_fresh in Hp as [_ Hin]. specialize (Hin Htruthy).
  simpl in Hin. rewrite Forall_forall in Hall.
  destruct (Hall _ Hin) as [Hnb Hs]. split; [done|]. split.
  - intros ->. by apply Hnb.
  - destruct (Hfrom _ Hin) as (item & Hitem & ->). by exists items, item.
Qed.

Definition spaced_config : Config :=
  mkConfig "http://localhost/list" "a.item" {[ "value" := "#export" ]}
    (Some [" Report Q1 "; "   "]) None None None None None.

Lemma configured_target_label_is_stripped_witness :
  PyStr.strip "Report Q1" = "Report Q1"
  /\ "Report Q1" <> ""
  /\ exists items item,
       link_text_targets spaced_config = Some items
       /\ item ∈ items /\ "Report Q1" = PyStr.strip item.
Proof.
  apply (configured_target_label_is_stripped spaced_config
           [covered] ∅ ["Report Q1"] covered "Report Q1");
    by vm_compute.
Defined.

(** ** Export trigger *)

(** What [trigger_export] adds to the trace is a wait or a native click. *)
Definition export_event (ev : Event) : Prop :=
  match ev with
  | EvWaitClickable _ _ _ | EvNativeClick _ => True
  | _ => False
  end.

(** [trigger_export] reports a missing ["value"] before it looks at the
    locator kind.  When it returns, it has waited once for the control and
    clicked once, natively, the element the wait gave; a click that raises
    is not retried by script, and nothing is scrolled: every event it adds
    is a wait or a native click, and the clock stands still. *)
Theorem trigger_export_effects
    (driver : Browser) (locator_config : gmap string string)
    (timeout : Z) (s : Session) :
  let r := trigger_export driver locator_config timeout s in
  (locator_config !! "value" = None -> r = (Raise (KeyError "value"), s))
  /\ (r.1 = Ok tt ->
      exists kind value button,
        locator_config !! "value" = Some value
        /\ map_by (PyStr.lower (default "css" (locator_config !! "by"))) = Ok kind
        /\ until_clickable driver kind value timeout = Ok button
        /\ el_click button = Ok tt
        /\ trace r.2 = trace s ++ [EvWaitClickable kind value timeout;
                                   EvNativeClick (el_id button)])
  /\ (forall kind value button x,
        locator_config !! "value" = Some value ->
        map_by (PyStr.lower (default "css" (locator_config !! "by"))) = Ok kind ->
        until_clickable driver kind value timeout = Ok button ->
        el_click button = Raise x ->
        r.1 = Raise x)
  /\ (exists added, trace r.2 = trace s ++ added /\ Forall export_event added)
  /\ clock r.2 = clock s.
Proof.
  unfold trigger_export, bind, lift, emit.
  destruct (locator_config !! "value") as [value|]; cbn zeta.
  2: { split; [done|]. split; [done|]. split; [done|]. split; [|done].
       exists []. by rewrite app_nil_r. }
  destruct (map_by (PyStr.lower (default "css" (locator_config !! "by"))))
    as [kind|y].
  2: { split; [done|]. split; [done|]. split; [done|]. split; [|done].
       exists []. by rewrite app_nil_r. }
  cbn [clock trace].
  destruct (until_clickable driver kind value timeout) as [button|y] eqn:Hwait.
  2: { split; [done|]. split; [done|]. split; [|split; [|done]].
       - intros k v b x [= <-] [= <-] Hb. congruence.
       - exists [EvWaitClickable kind value timeout]. split; [done|].
         by repeat constructor. }
  cbn [clock trace fst snd]. split; [done|]. split; [|split; [|split]].
  - intros Hok. exists kind, value, button.
    repeat split; try done. by rewrite <- app_assoc.
  - intros k v b x [= <-] [= <-] Hb Hx. congruence.
  - exists [EvWaitClickable kind value timeout; EvNativeClick (el_id button)].
    split; [by rewrite <- app_assoc|]. by repeat constructor.
  - done.
Qed.

(** The locator kind is read without regard to letter case, and an absent
    ["by"] is read as ["css"]. *)
Theorem trigger_export_by_case
    (driver : Browser) (locator_config : gmap string string)
    (timeout : Z) (s : Session) (b1 b2 : string) :
  PyStr.lower b1 = PyStr.lower b2 ->
  trigger_export driver (<["by" := b1]> locator_config) timeout s
  = trigger_export driver (<["by" := b2]> locator_config) timeout s
  /\ (PyStr.lower b1 = "css" ->
      trigger_export driver (<["by" := b1]> locator_config) timeout s
      = trigger_export driver (delete "by" locator_config) timeout s).
Proof.
  intros Hl. unfold trigger_export.
  rewrite !lookup_insert_eq, !lookup_insert_ne, lookup_delete_eq,
    lookup_delete_ne by done.
  change (default "css" (Some b1)) with b1.
  change (default "css" (Some b2)) with b2.
  change (default "css" (@None string)) with "css".
  rewrite Hl. split; [done|]. intros Hcss. by rewrite Hcss.
Qed.

Lemma trigger_export_by_case_witness :
  trigger_export (driver_at no_export 1)
    {[ "by" := "XPath"; "value" := "//a" ]} 30 (mkSession 0 [])
  = trigger_export (driver_at no_export 1)
      {[ "by" := "xpath"; "value" := "//a" ]} 30 (mkSession 0 []).
Proof.
  apply (trigger_export_by_case (driver_at no_export 1) {[ "value" := "//a" ]}
           30 (mkSession 0 []) "XPath" "xpath").
  reflexivity.
Defined.

(** ** Download waiter: the general outcome *)

Lemma wait_loop_outcome (target_dir : Directory) (deadline : Z) (n : nat) :
  forall s,
    Z.to_nat (deadline - clock s) = n ->
    let r := wait_loop target_dir deadline s in
    (r.1 = Ok tt \/ r.1 = Raise TimeoutException)
    /\ (r.1 = Ok tt ->
        clock s <= clock r.2 < deadline
        /\ any_crdownload target_dir (clock r.2) = false)
    /\ (r.1 = Raise TimeoutException -> clock r.2 = Z.max (clock s) deadline)
    /\ (forall t, clock s <= t < Z.min (clock r.2) deadline ->
                  any_crdownload target_dir t = true).
Proof.
  induction n as [|n IH]; intros s Hn; cbv zeta; rewrite wait_loop_turn.
  - rewrite decide_False by lia. cbn [fst snd].
    split; [by right|]. split; [done|]. split; [lia|]. lia.
  - rewrite decide_True by lia. cbv zeta.
    destruct (any_crdownload target_dir (clock s)) eqn:Hnow.
    + set (s' := mkSession (clock s + 1) _).
      destruct (IH s') as (Hcase & Hok & Hto & Hbusy); [simpl; lia|].
      change (clock s') with (clock s + 1) in *.
      split; [done|]. split; [|split].
      * intros H. destruct (Hok H) as [? ?]. split; [lia|done].
      * intros H. rewrite (Hto H). lia.
      * intros t Ht. destruct (decide (t = clock s)) as [->|Hne]; [done|].
        apply Hbusy. lia.
    + cbn [fst snd clock]. split; [by left|]. split; [|split].
      * intros _. split; [lia|done].
      * done.
      * lia.
Qed.

(** With a timeout of whole seconds, of any sign, [wait_for_downloads]
    ends in one of two ways, a return or a [TimeoutException].  It returns
    exactly when the directory is free of markers at one of the whole
    seconds from the call up to the timeout, the timeout left out, and it
    raises exactly when a marker is there at every one of them.  When it
    returns, it does so at the first free second, which is before the
    deadline, having found a marker at every second before. *)
Theorem wait_for_downloads_outcome
    (target_dir : Directory) (timeout : Z) (s : Session) :
  let r := wait_for_downloads target_dir timeout s in
  (r.1 = Ok tt \/ r.1 = Raise TimeoutException)
  /\ (r.1 = Ok tt <->
      exists k, 0 <= k < timeout
                /\ any_crdownload target_dir (clock s + k) = false)
  /\ (r.1 = Raise TimeoutException <->
      forall k, 0 <= k < timeout ->
                any_crdownload target_dir (clock s + k) = true)
  /\ (r.1 = Ok tt ->
      clock s <= clock r.2 < clock s + timeout
      /\ any_crdownload target_dir (clock r.2) = false
      /\ forall t, clock s <= t < clock r.2 ->
                   any_crdownload target_dir t = true).
Proof.
  cbv zeta. unfold wait_for_downloads.
  destruct (wait_loop_outcome target_dir (clock s + timeout)
              (Z.to_nat (clock s + timeout - clock s)) s eq_refl)
    as (Hcase & Hok & Hto & Hbusy).
  set (r := wait_loop target_dir (clock s + timeout) s) in *.
  split; [done|]. split; [|split].
  - split.
    + intros H. destruct (Hok H) as [Hc Hfree].
      exists (clock r.2 - clock s). split; [lia|].
      by replace (clock s + (clock r.2 - clock s)) with (clock r.2) by lia.
    + intros (k & Hk & Hfree). destruct Hcase as [H|H]; [done|].
      specialize (Hto H). rewrite Hbusy in Hfree by lia. done.
  - split.
    + intros H k Hk. specialize (Hto H). apply Hbusy. lia.
    + intros Hall. destruct Hcase as [H|H]; [|done].
      destruct (Hok H) as [Hc Hfree].
      assert (Ht : any_crdownload target_dir
                     (clock s + (clock r.2 - clock s)) = true)
        by (apply Hall; lia).
      replace (clock s + (clock r.2 - clock s)) with (clock r.2) in Ht by lia.
      congruence.
  - intros H. destruct (Hok H) as [Hc Hfree]. split; [lia|]. split; [done|].
    intros t Ht. apply Hbusy. lia.
Qed.

(** ** Download waiter: what counts as a marker *)







(** ** Traversal loop: the whole run *)

(** The loop has ended, by running out of links or by an exception. *)
Definition finished (l : Loop) : Prop :=
  stage l = DONE \/ exists e, stage l = ABORTED e.

Ltac stage_outcome :=
  match goal with
  | |- context [match ?m ?s with _ => _ end] =>
      destruct (m s) as [[?a|?x] ?s'] eqn:?Hrun
  end.

Section Whole_run.

Variable config : Config.
Variable world : World.

(** [run_automation]: open the start page, wait until it is ready, then
    run the loop, here for [fuel] stages.  [open_start] is what
    [driver.get(start_url)] answers. *)
Definition run_automation (open_start : Res unit) (fuel : nat) (s : Session)
  : Loop :=
  match (lift open_start ;;
         wait_for_page_ready (driver_at world 0) (ready_timeout config)) s with
  | (Ok _, s') => steps config world fuel (loop_entry s')
  | (Raise e, s') => mkLoop (ABORTED e) ∅ 0 s'
  end.

Lemma step_finished (l : Loop) : finished l -> step config world l = l.
Proof. unfold step. by intros [-> | [e ->]]. Qed.

Lemma steps_of_finished (n : nat) (l : Loop) :
  finished l -> steps config world n l = l.
Proof.
  induction n as [|n IH]; intros Hf; simpl; [done|].
  rewrite step_finished by done. by apply IH.
Qed.

Lemma steps_add (n m : nat) (l : Loop) :
  steps config world (n + m) l = steps config world m (steps config world n l).
Proof. revert l. induction n as [|n IH]; intros l; simpl; [done|apply IH]. Qed.

Lemma finished_steps (n : nat) (l : Loop) :
  finished l -> finished (steps config world n l).
Proof. intros Hf. by rewrite steps_of_finished. Qed.

(** Where one stage leads, and what it does to the visited set and to the
    count of iterations. *)
Definition leads (l l' : Loop) : Prop :=
  match stage l with
  | SCANNING =>
      (exists elements, stage l' = SELECTING elements)
      /\ visited_labels l' = visited_labels l
      /\ iteration l' = S (iteration l)
  | SELECTING _ =>
      iteration l' = iteration l
      /\ visited_labels l' = visited_labels l
      /\ (stage l' = DONE
          \/ exists e label,
               stage l' = CLICKING e label
               /\ (label ∉ visited_labels l)
               /\ (targets_truthy (target_texts config) = true ->
                   label ∈ default [] (target_texts config)))
  | CLICKING _ label =>
      stage l' = WAITING_CONTENT label
      /\ visited_labels l' = {[ label ]} ∪ visited_labels l
      /\ iteration l' = iteration l
  | WAITING_CONTENT label =>
      stage l' = EXPORTING label
      /\ visited_labels l' = visited_labels l /\ iteration l' = iteration l
  | EXPORTING label =>
      stage l' = WAITING_DOWNLOAD label
      /\ visited_labels l' = visited_labels l /\ iteration l' = iteration l
  | WAITING_DOWNLOAD label =>
      stage l' = RETURNING label
      /\ visited_labels l' = visited_labels l /\ iteration l' = iteration l
  | RETURNING _ =>
      stage l' = SCANNING
      /\ visited_labels l' = visited_labels l /\ iteration l' = iteration l
  | DONE | ABORTED _ => l' = l
  end.

(** A stage either raises, which ends the loop with the visited set and
    the count as they were on entering the stage, or leads on. *)
Lemma step_cases (l : Loop) :
  leads l (step config world l)
  \/ ((exists e, stage (step config world l) = ABORTED e)
      /\ visited_labels (step config world l) = visited_labels l
      /\ (iteration (step config world l) = iteration l
          \/ stage l = SCANNING
             /\ iteration (step config world l) = S (iteration l))).
Proof.
  unfold leads, step, advance.
  destruct (stage l) eqn:Hst; try (by left); stage_outcome;
    cbn [stage visited_labels iteration session goto];
    try (right; split; [by eexists|]; split; [done|]; by auto).
  - left. split; [by eexists|done].
  - left. destruct a as [[e label]|];
      cbn [goto stage visited_labels iteration].
    + split; [done|]. split; [done|]. right. exists e, label.
      split; [done|]. unfold lift in Hrun. injection Hrun as Hrun _.
      by apply pick_next_link_fresh in Hrun.
    + split; [done|]. split; [done|]. by left.
  - by left.
  - by left.
  - by left.
  - by left.
  - by left.
Qed.

(** The count of iterations against the size of the visited set. *)
Definition counted (l : Loop) : Prop :=
  match stage l with
  | SCANNING | WAITING_CONTENT _ | EXPORTING _ | WAITING_DOWNLOAD _
  | RETURNING _ => size (visited_labels l) = iteration l
  | SELECTING _ | DONE => S (size (visited_labels l)) = iteration l
  | CLICKING _ label =>
      S (size (visited_labels l)) = iteration l /\ label ∉ visited_labels l
  | ABORTED _ =>
      (size (visited_labels l) <= iteration l <= S (size (visited_labels l)))%nat
  end.

Lemma step_counted (l : Loop) : counted l -> counted (step config world l).
Proof.
  intros Hc. destruct (step_cases l) as [Hl | ([e He] & Hv & Hi)].
  - unfold leads, counted in *. destruct (stage l) eqn:Hst.
    + destruct Hl as ([elements ->] & -> & ->). by f_equal.
    + destruct Hl as (-> & -> & [-> | (e & label & -> & Hfresh & _)]); done.
    + destruct Hl as (-> & -> & ->). destruct Hc as [<- Hfresh].
      rewrite size_union by set_solver. by rewrite size_singleton.
    + by destruct Hl as (-> & -> & ->).
    + by destruct Hl as (-> & -> & ->).
    + by destruct Hl as (-> & -> & ->).
    + by destruct Hl as (-> & -> & ->).
    + rewrite Hl, Hst. done.
    + rewrite Hl, Hst. done.
  - unfold counted in *. rewrite He, Hv.
    destruct (stage l) eqn:Hst;
      destruct Hi as [-> | [? ->]]; try done; lia.
Qed.

Lemma steps_counted (n : nat) (l : Loop) :
  counted l -> counted (steps config world n l).
Proof.
  revert l. induction n as [|n IH]; intros l Hl; simpl; [done|].
  apply IH. by apply step_counted.
Qed.

Lemma run_automation_counted (open_start : Res unit) (fuel : nat) (s : Session) :
  counted (run_automation open_start fuel s).
Proof.
  unfold run_automation.
  destruct ((lift open_start;;
             wait_for_page_ready (driver_at world 0) (ready_timeout config)) s)
    as [[a|x] s'].
  - apply steps_counted. unfold counted, loop_entry.
    cbn [stage visited_labels iteration]. by rewrite size_empty.
  - unfold counted. cbn [stage visited_labels iteration].
    rewrite size_empty. lia.
Qed.

(** The loop never clicks a label that is in the visited set, so every
    cycle that gets past its click adds a new label: the labels visited
    are as many as the iterations begun, less the one under way.  When the
    run ends for want of links, the last iteration is the one that found
    none. *)
Theorem run_automation_counts
    (open_start : Res unit) (fuel : nat) (s : Session) :
  let l := run_automation open_start fuel s in
  (size (visited_labels l) <= iteration l <= S (size (visited_labels l)))%nat
  /\ (stage l = DONE -> iteration l = S (size (visited_labels l)))
  /\ (stage l = SCANNING -> iteration l = size (visited_labels l))
  /\ (forall e label, stage l = CLICKING e label -> label ∉ visited_labels l).
Proof.
  cbv zeta. pose proof (run_automation_counted open_start fuel s) as Hc.
  unfold counted in Hc.
  destruct (stage (run_automation open_start fuel s)) eqn:Hst;
    repeat split; try done; try lia.
  intros e' label' [= <- <-]. by destruct Hc.
Qed.





Lemma steps_S (n : nat) (l : Loop) :
  steps config world (S n) l = steps config world n (step config world l).
Proof. reflexivity. Qed.

Lemma steps_O (l : Loop) : steps config world 0 l = l.
Proof. reflexivity. Qed.

Ltac next_stage l Hs H :=
  rewrite steps_S;
  destruct (step_cases l) as [H|[?Hab _]];
  [unfold leads in H; rewrite Hs in H
  |left; apply finished_steps; by right].

(** One turn of the loop, from scan to scan: it ends the run, or it comes
    back to scanning with one more label visited. *)
Lemma cycle (l : Loop) :
  stage l = SCANNING ->
  finished (steps config world 7 l)
  \/ (stage (steps config world 7 l) = SCANNING
      /\ exists label,
           (label ∉ visited_labels l)
           /\ (targets_truthy (target_texts config) = true ->
               label ∈ default [] (target_texts config))
           /\ visited_labels (steps config world 7 l)
              = {[ label ]} ∪ visited_labels l).
Proof.
  intros Hs0.
  next_stage l Hs0 H1. destruct H1 as ([elements Hs1] & Hv1 & _).
  generalize dependent (step config world l). intros l1 Hs1 Hv1.
  next_stage l1 Hs1 H2.
  destruct H2 as (_ & Hv2 & [Hdone | (e & label & Hs2 & Hfresh & Hin)]);
    [left; apply finished_steps; by left|].
  generalize dependent (step config world l1). intros l2 Hv2 Hs2.
  next_stage l2 Hs2 H3. destruct H3 as (Hs3 & Hv3 & _).
  generalize dependent (step config world l2). intros l3 Hs3 Hv3.
  next_stage l3 Hs3 H4. destruct H4 as (Hs4 & Hv4 & _).
  generalize dependent (step config world l3). intros l4 Hs4 Hv4.
  next_stage l4 Hs4 H5. destruct H5 as (Hs5 & Hv5 & _).
  generalize dependent (step config world l4). intros l5 Hs5 Hv5.
  next_stage l5 Hs5 H6. destruct H6 as (Hs6 & Hv6 & _).
  generalize dependent (step config world l5). intros l6 Hs6 Hv6.
  next_stage l6 Hs6 H7. destruct H7 as (Hs7 & Hv7 & _).
  rewrite steps_O. right. split; [done|]. exists label. rewrite Hv1 in Hfresh.
  split; [done|]. split; [done|].
  by rewrite Hv7, Hv6, Hv5, Hv4, Hv3, Hv2, Hv1.
Qed.

Lemma targeted_run_ends (ts : list string) (k : nat) :
  target_texts config = Some ts ->
  forall l,
    stage l = SCANNING ->
    visited_labels l ⊆ list_to_set ts ->
    (size (list_to_set ts ∖ visited_labels l : gset string) <= k)%nat ->
    finished (steps config world (7 * k + 2) l).
Proof.
  intros Hts.
  assert (Htruthy : targets_truthy (target_texts config) = true).
  { rewrite Hts. unfold target_texts in Hts.
    by apply normalize_target_texts_Some in Hts as [? _]. }
  induction k as [|k IH]; intros l Hs Hsub Hsize.
  - change (7 * 0 + 2)%nat with 2%nat. rewrite steps_S.
    destruct (step_cases l) as [H1|[Hab _]];
      [unfold leads in H1; rewrite Hs in H1
      |apply finished_steps; by right].
    destruct H1 as ([elements Hs1] & Hv1 & _).
    rewrite steps_S, steps_O.
    destruct (step_cases (step config world l)) as [H2|[Hab _]];
      [unfold leads in H2; rewrite Hs1 in H2|by right].
    destruct H2 as (_ & _ & [Hdone | (e & label & _ & Hfresh & Hin)]);
      [by left|].
    exfalso. apply Hfresh. rewrite Hv1.
    specialize (Hin Htruthy). rewrite Hts in Hin. simpl in Hin.
    assert (Hempty : list_to_set ts ∖ visited_labels l = (∅ : gset string)).
    { apply leibniz_equiv, size_empty_inv. lia. }
    destruct (decide (label ∈ visited_labels l)) as [|Hnot]; [done|].
    assert (label ∈ (list_to_set ts ∖ visited_labels l : gset string)).
    { apply elem_of_difference. split; [by apply elem_of_list_to_set|done]. }
    rewrite Hempty in H. by apply elem_of_empty in H.
  - replace (7 * S k + 2)%nat with (7 + (7 * k + 2))%nat by lia.
    rewrite steps_add.
    destruct (cycle l Hs) as [Hfin | (Hs7 & label & Hfresh & Hin & Hv7)];
      [by apply finished_steps|].
    specialize (Hin Htruthy). rewrite Hts in Hin. simpl in Hin.
    apply IH; [done| |].
    + rewrite Hv7. apply union_subseteq. split; [|done].
      apply singleton_subseteq_l. by apply elem_of_list_to_set.
    + rewrite Hv7.
      assert (Hlt : (size (list_to_set ts ∖ ({[label]} ∪ visited_labels l) : gset string)
                     < size (list_to_set ts ∖ visited_labels l : gset string))%nat).
      { apply subset_size. split.
        - intros y Hy. apply elem_of_difference in Hy as [Hy1 Hy2].
          apply elem_of_difference. split; [done|]. intros Hv. apply Hy2.
          apply elem_of_union. by right.
        - intros Hback. assert (Hl : label ∈ (list_to_set ts ∖ visited_labels l : gset string)).
          { apply elem_of_difference. split; [by apply elem_of_list_to_set|done]. }
          apply Hback in Hl. apply elem_of_difference in Hl as [_ Hl].
          apply Hl. apply elem_of_union. left. by apply elem_of_singleton. }
      lia.
Qed.

(** With a target list the run always ends: within seven stages for each
    entry of the list and two more, the loop has run out of links or has
    raised, whatever the pages show. *)
Theorem run_automation_with_targets_ends
    (ts : list string) (open_start : Res unit) (fuel : nat) (s : Session) :
  target_texts config = Some ts ->
  (7 * length ts + 2 <= fuel)%nat ->
  finished (run_automation open_start fuel s).
Proof.
  intros Hts Hfuel. unfold run_automation.
  destruct ((lift open_start;;
             wait_for_page_ready (driver_at world 0) (ready_timeout config)) s)
    as [[a|x] s']; [|right; by eexists].
  replace fuel with ((7 * length ts + 2) + (fuel - (7 * length ts + 2)))%nat
    by lia.
  rewrite steps_add. apply finished_steps.
  apply (targeted_run_ends ts); [done|done|apply empty_subseteq|].
  cbn [loop_entry visited_labels]. rewrite difference_empty_L.
  clear. induction ts as [|t ts IH];
    [by rewrite list_to_set_nil, size_empty|].
  rewrite list_to_set_cons, size_union_alt, size_singleton. cbn [length].
  etrans; [|apply le_n_S, IH]. apply le_n_S, subseteq_size.
  by apply subseteq_difference_l.
Qed.

End Whole_run.


Lemma run_automation_with_targets_ends_witness :
  finished (run_automation spaced_config no_export (Ok tt) 9 (mkSession 0 [])).
Proof.
  apply (run_automation_with_targets_ends spaced_config no_export
           ["Report Q1"] (Ok tt) 9 (mkSession 0 []));
    [reflexivity | simpl; lia].
Defined.

(** ** Traversal loop: what the configuration allows *)

(** [m] only adds events to the trace, and each of them satisfies [P]. *)
Definition appends {A : Type} (P : Event -> Prop) (m : M A) : Prop :=
  forall s, exists added,
    trace (m s).2 = trace s ++ added /\ Forall P added.

Lemma appends_ret {A : Type} (P : Event -> Prop) (a : A) : appends P (ret a).
Proof. intros s. exists []. by rewrite app_nil_r. Qed.

Lemma appends_lift {A : Type} (P : Event -> Prop) (r : Res A) :
  appends P (lift r).
Proof. intros s. exists []. by rewrite app_nil_r. Qed.

Lemma appends_emit (P : Event -> Prop) (ev : Event) :
  P ev -> appends P (emit ev).
Proof. intros Hev s. exists [ev]. split; [done|]. by repeat constructor. Qed.

Lemma appends_sleep (P : Event -> Prop) (seconds : Z) :
  P (EvSleep seconds) -> appends P (sleep seconds).
Proof. intros Hev s. exists [EvSleep seconds]. split; [done|]. by repeat constructor. Qed.

Lemma appends_bind {A B : Type} (P : Event -> Prop) (m : M A) (k : A -> M B) :
  appends P m -> (forall a, appends P (k a)) -> appends P (bind m k).
Proof.
  intros Hm Hk s. unfold bind. destruct (Hm s) as (added & Ht & Hall).
  destruct (m s) as [[a|x] s1]; simpl in *; [|by exists added].
  destruct (Hk a s1) as (added' & Ht' & Hall').
  exists (added ++ added'). rewrite Ht', Ht, app_assoc. split; [done|].
  by apply Forall_app.
Qed.

Lemma appends_try_except {A : Type} (P : Event -> Prop)
    (body : M A) (handler : exn -> M A) :
  appends P body -> (forall e, appends P (handler e)) ->
  appends P (try_except body handler).
Proof.
  intros Hm Hk s. unfold try_except. destruct (Hm s) as (added & Ht & Hall).
  destruct (body s) as [[a|x] s1]; simpl in *; [by exists added|].
  destruct (Hk x s1) as (added' & Ht' & Hall').
  exists (added ++ added'). rewrite Ht', Ht, app_assoc. split; [done|].
  by apply Forall_app.
Qed.

Lemma appends_wait_loop (P : Event -> Prop) (target_dir : Directory)
    (deadline : Z) (n : nat) :
  (forall t, P (EvGlob t)) -> P (EvSleep 1) ->
  forall s, Z.to_nat (deadline - clock s) = n ->
    exists added,
      trace (wait_loop target_dir deadline s).2 = trace s ++ added
      /\ Forall P added.
Proof.
  intros Hglob Hsleep. induction n as [|n IH]; intros s Hn;
    rewrite wait_loop_turn.
  - rewrite decide_False by lia. exists []. by rewrite app_nil_r.
  - rewrite decide_True by lia. cbv zeta.
    destruct (any_crdownload target_dir (clock s)).
    + set (s' := mkSession (clock s + 1) _).
      destruct (IH s') as (added & Ht & Hall); [simpl; lia|].
      exists ([EvGlob (clock s); EvSleep 1] ++ added).
      rewrite Ht. subst s'. cbn [trace]. rewrite <- !app_assoc.
      split; [done|]. apply Forall_app. split; [|done].
      by repeat constructor.
    + exists [EvGlob (clock s)]. split; [done|]. by repeat constructor.
Qed.

Lemma appends_wait_for_downloads (P : Event -> Prop)
    (target_dir : Directory) (timeout : Z) :
  (forall t, P (EvGlob t)) -> P (EvSleep 1) ->
  appends P (wait_for_downloads target_dir timeout).
Proof.
  intros Hglob Hsleep s. unfold wait_for_downloads.
  by eapply appends_wait_loop.
Qed.

Section Allowed.

Variable config : Config.
Variable world : World.

(** The events a run with this configuration may produce. *)
Definition allowed (ev : Event) : Prop :=
  match ev with
  | EvBack => back_after_export config = true
  | EvWaitReady timeout => timeout = ready_timeout config
  | EvFindElements selector => selector = link_items_selector config
  | EvSleep seconds =>
      (0 < wait_after_link config /\ seconds = wait_after_link config)
      \/ (0 < download_wait config /\ seconds = 1)
  | EvGlob _ => 0 < download_wait config
  | EvWaitClickable _ _ timeout => timeout = export_timeout config
  | EvScrollIntoView _ | EvNativeClick _ | EvScriptClick _ => True
  end.

Lemma advance_appends {A : Type} (l : Loop) (m : M A)
    (next : A -> Loop -> Loop) :
  (forall a l', session (next a l') = session l') ->
  appends allowed m ->
  exists added,
    trace (session (advance l m next)) = trace (session l) ++ added
    /\ Forall allowed added.
Proof.
  intros Hnext Hm. unfold advance.
  destruct (Hm (session l)) as (added & Ht & Hall).
  destruct (m (session l)) as [[a|x] s1]; simpl in *.
  - rewrite Hnext. by exists added.
  - by exists added.
Qed.

Lemma step_appends (l : Loop) :
  exists added,
    trace (session (step config world l)) = trace (session l) ++ added
    /\ Forall allowed added.
Proof.
  unfold step. destruct (stage l) eqn:Hst;
    try (exists []; by rewrite app_nil_r).
  - apply (advance_appends (mkLoop _ _ _ _)); [done|].
    apply appends_bind; [by apply appends_emit|]. intros _. apply appends_lift.
  - apply advance_appends; [|apply appends_lift]. by intros [[e lab]|] l'.
  - apply advance_appends; [done|]. unfold click_element.
    apply appends_bind; [by apply appends_emit|]. intros _.
    apply appends_bind; [apply appends_lift|]. intros _.
    apply appends_try_except.
    + apply appends_bind; [by apply appends_emit|]. intros _. apply appends_lift.
    + intros _. apply appends_bind; [by apply appends_emit|]. intros _.
      apply appends_lift.
  - apply advance_appends; [done|].
    destruct (0 <? wait_after_link config) eqn:Hw; [|apply appends_ret].
    apply appends_sleep. left. split; [lia|done].
  - apply advance_appends; [done|]. unfold trigger_export.
    apply appends_bind; [apply appends_lift|]. intros value.
    apply appends_bind; [apply appends_lift|]. intros kind.
    apply appends_bind; [by apply appends_emit|]. intros _.
    apply appends_bind; [apply appends_lift|]. intros button.
    apply appends_bind; [by apply appends_emit|]. intros _. apply appends_lift.
  - apply advance_appends; [done|].
    destruct (0 <? download_wait config) eqn:Hw; [|apply appends_ret].
    apply appends_wait_for_downloads.
    + intros t. simpl. lia.
    + right. split; [lia|done].
  - apply advance_appends; [done|].
    destruct (back_after_export config) eqn:Hb; [|apply appends_ret].
    apply appends_bind; [by apply appends_emit|]. intros _.
    apply appends_bind; [apply appends_lift|]. intros _.
    unfold wait_for_page_ready.
    apply appends_bind; [by apply appends_emit|]. intros _. apply appends_lift.
Qed.

Lemma steps_appends (n : nat) (l : Loop) :
  exists added,
    trace (session (steps config world n l)) = trace (session l) ++ added
    /\ Forall allowed added.
Proof.
  revert l. induction n as [|n IH]; intros l; simpl.
  - exists []. by rewrite app_nil_r.
  - destruct (step_appends l) as (added & Ht & Hall).
    destruct (IH (step config world l)) as (added' & Ht' & Hall').
    exists (added ++ added'). rewrite Ht', Ht, app_assoc. split; [done|].
    by apply Forall_app.
Qed.

(** A run only adds to the trace, and adds only what its configuration
    allows: it goes back in the history only with
    [navigate_back_after_export], it sleeps and looks at the download
    directory only for waits that are positive, and it waits for the page
    and for the export control with the configured timeouts. *)
Theorem run_automation_allowed
    (open_start : Res unit) (fuel : nat) (s : Session) :
  exists added,
    trace (session (run_automation config world open_start fuel s))
    = trace s ++ added
    /\ Forall allowed added
    /\ (back_after_export config = false -> EvBack ∉ added)
    /\ (wait_after_link config <= 0 -> download_wait config <= 0 ->
        forall ev, ev ∈ added ->
          match ev with EvSleep _ | EvGlob _ => False | _ => True end).
Proof.
  assert (Hrun : exists added,
            trace (session (run_automation config world open_start fuel s))
            = trace s ++ added /\ Forall allowed added).
  { unfold run_automation.
    assert (Hpre : appends allowed
              (lift open_start;;
               wait_for_page_ready (driver_at world 0) (ready_timeout config))).
    { apply appends_bind; [apply appends_lift|]. intros _.
      unfold wait_for_page_ready.
      apply appends_bind; [by apply appends_emit|]. intros _.
      apply appends_lift. }
    destruct (Hpre s) as (added & Ht & Hall).
    destruct ((lift open_start;;
               wait_for_page_ready (driver_at world 0) (ready_timeout config)) s)
      as [[a|x] s1]; simpl in Ht; [|by exists added].
    destruct (steps_appends fuel (loop_entry s1)) as (added' & Ht' & Hall').
    exists (added ++ added'). rewrite Ht'. cbn [session loop_entry].
    rewrite Ht, app_assoc. split; [done|]. by apply Forall_app. }
  destruct Hrun as (added & Ht & Hall). exists added.
  split; [done|]. split; [done|]. rewrite Forall_forall in Hall. split.
  - intros Hb Hin. apply Hall in Hin. simpl in Hin. congruence.
  - intros Hw Hd ev Hin. apply Hall in Hin.
    destruct ev; try done; simpl in Hin; lia.
Qed.

End Allowed.

(** ** Request headers *)

Definition DEFAULT_REQUEST_HEADERS : gmap string string :=
  list_to_map
    [ ("Accept",
       "text/html,application/xhtml+xml,application/xml;q=0.9,image/avif,image/webp,image/apng,*/*;q=0.8,application/signed-exchange;v=b3;q=0.7");
      ("Accept-Language", "zh-CN,zh;q=0.9,en;q=0.8");
      ("Cache-Control", "no-cache");
      ("Pragma", "no-cache");
      ("Upgrade-Insecure-Requests", "1") ].

(** The commands [setup_request_headers] sends over the DevTools protocol. *)
Inductive CdpCommand : Type :=
| Network_enable
| Network_setExtraHTTPHeaders (headers : gmap string string).

(** The local [headers] of [setup_request_headers].  [extra_headers] is the
    configured ["request_headers"] when it is a dictionary, and [None]
    otherwise; a value of it is a string or null, and [str] is the identity
    on its keys and on its strings. *)
Definition request_headers (user_agent : option string)
    (extra_headers : option (gmap string (option string)))
  : gmap string string :=
  let headers := DEFAULT_REQUEST_HEADERS in
  let headers :=
    if PyStr.truthy_opt user_agent
    then <["User-Agent" := default "" user_agent]> headers
    else headers in
  match extra_headers with
  | Some extra => omap id extra ∪ headers
  | None => headers
  end.

(** Selenium's exceptions all derive from [WebDriverException]. *)
Definition is_WebDriverException (e : exn) : bool :=
  match e with
  | ValueError _ | KeyError _ => false
  | _ => true
  end.

(** [setup_request_headers]: the result and the commands sent, in order.
    [execute_cdp_cmd] is what the driver answers to each command. *)
Definition setup_request_headers (execute_cdp_cmd : CdpCommand -> Res unit)
    (extra_headers : option (gmap string (option string)))
    (user_agent : option string) : Res unit * list CdpCommand :=
  let headers := request_headers user_agent extra_headers in
  let attempt :=
    match execute_cdp_cmd Network_enable with
    | Raise e => (Raise e, [Network_enable])
    | Ok _ =>
        (execute_cdp_cmd (Network_setExtraHTTPHeaders headers),
         [Network_enable; Network_setExtraHTTPHeaders headers])
    end in
  match attempt with
  | (Raise e, sent) =>
      if is_WebDriverException e then (Ok tt, sent) else (Raise e, sent)
  | (Ok _, sent) => (Ok tt, sent)
  end.

(** The configured value that replaces a header, if there is one. *)
Definition configured_header
    (extra_headers : option (gmap string (option string))) (name : string)
  : option string :=
  match extra_headers with
  | Some extra => match extra !! name with
                  | Some (Some value) => Some value
                  | _ => None
                  end
  | None => None
  end.

(** Each header sent is the configured one when the configuration gives it
    a value; otherwise [User-Agent] is the user agent, when that is not
    empty, and every other header is the default.  A null in the
    configuration neither removes a header nor replaces it. *)
Theorem request_headers_lookup
    (user_agent : option string)
    (extra_headers : option (gmap string (option string))) (name : string) :
  request_headers user_agent extra_headers !! name =
  match configured_header extra_headers name with
  | Some value => Some value
  | None =>
      if decide (name = "User-Agent" /\ PyStr.truthy_opt user_agent = true)
      then user_agent
      else DEFAULT_REQUEST_HEADERS !! name
  end.
Proof.
  assert (Hbase : (if PyStr.truthy_opt user_agent
                   then <["User-Agent" := default "" user_agent]>
                          DEFAULT_REQUEST_HEADERS
                   else DEFAULT_REQUEST_HEADERS) !! name
                  = if decide (name = "User-Agent"
                               /\ PyStr.truthy_opt user_agent = true)
                    then user_agent
                    else DEFAULT_REQUEST_HEADERS !! name).
  { destruct (PyStr.truthy_opt user_agent) eqn:Hua.
    - destruct (decide (name = "User-Agent")) as [->|Hne].
      + rewrite lookup_insert_eq, decide_True by done.
        by destruct user_agent.
      + rewrite lookup_insert_ne by done. rewrite decide_False; [done|].
        by intros [? _].
    - rewrite decide_False; [done|]. by intros [_ ?]. }
  unfold request_headers, configured_header. cbv zeta.
  destruct extra_headers as [extra|]; [|exact Hbase].
  rewrite lookup_union, lookup_omap.
  destruct (extra !! name) as [[value|]|]; simpl.
  - by rewrite union_Some_l.
  - rewrite Hbase. by rewrite (left_id None _).
  - rewrite Hbase. by rewrite (left_id None _).
Qed.

(** [setup_request_headers] sends [Network.enable] first and the headers
    only when that was accepted.  A Selenium exception from either command
    is swallowed: the function then returns as if the headers were set, and
    it never raises a Selenium exception. *)
Theorem setup_request_headers_swallows
    (execute_cdp_cmd : CdpCommand -> Res unit)
    (extra_headers : option (gmap string (option string)))
    (user_agent : option string) :
  let r := setup_request_headers execute_cdp_cmd extra_headers user_agent in
  let headers := request_headers user_agent extra_headers in
  (forall e, r.1 = Raise e -> is_WebDriverException e = false)
  /\ (forall e, execute_cdp_cmd Network_enable = Raise e ->
        r.2 = [Network_enable]
        /\ r.1 = if is_WebDriverException e then Ok tt else Raise e)
  /\ (execute_cdp_cmd Network_enable = Ok tt ->
        r.2 = [Network_enable; Network_setExtraHTTPHeaders headers]
        /\ (forall e,
              execute_cdp_cmd (Network_setExtraHTTPHeaders headers) = Raise e ->
              is_WebDriverException e = true -> r.1 = Ok tt)).
Proof.
  cbv zeta. unfold setup_request_headers. cbv zeta.
  destruct (execute_cdp_cmd Network_enable) as [[]|e0] eqn:Hen.
  - destruct (execute_cdp_cmd
                (Network_setExtraHTTPHeaders
                   (request_headers user_agent extra_headers)))
      as [[]|e1] eqn:Hset; cbn [fst snd].
    + split; [done|]. split; [done|]. by intros _.
    + destruct (is_WebDriverException e1) eqn:Hwd; cbn [fst snd].
      * split; [done|]. split; [done|]. by intros _.
      * split; [by intros e [= <-]|]. split; [done|]. intros _.
        split; [done|]. intros e [= <-]. congruence.
  - destruct (is_WebDriverException e0) eqn:Hwd; cbn [fst snd].
    + split; [done|]. split; [|done]. intros e [= <-]. by rewrite Hwd.
    + split; [by intros e [= <-]|]. split; [|done].
      intros e [= <-]. by rewrite Hwd.
Qed.

(** ** Configuration loading *)

(** What [load_config] raises. *)
Inductive config_exn : Type :=
| FileNotFoundError (msg : string)
| JSONDecodeError
| MissingKeyError (msg : string).  (* Python's KeyError *)

(** [", ".join(items)] and the like. *)
Fixpoint join (sep : string) (items : list string) : string :=
  match items with
  | [] => ""
  | [item] => item
  | item :: rest => (item ++ sep ++ join sep rest)%string
  end.

Definition required : list string :=
  ["start_url"; "link_items_selector"; "export_button"].

Section Load_config.

(** The values of the configuration, as [json.load] gives them. *)
Variable json : Type.

(** [load_config], for the configuration file at [config_path]: [file] is
    [None] when there is no such file, and otherwise what [json.load]
    makes of it, [None] when it is not valid. *)
Definition load_config (config_path : string)
    (file : option (option (gmap string json)))
  : config_exn + gmap string json :=
  match file with
  | None =>
      inl (FileNotFoundError
             ("Configuration file not found at " ++ config_path
              ++ ". Create it by copying automation_config.example.json.")%string)
  | Some None => inl JSONDecodeError
  | Some (Some config) =>
      let missing := filter (fun key => config !! key = None) required in
      match missing with
      | [] => inr config
      | _ :: _ =>
          inl (MissingKeyError
                 ("Missing configuration keys: " ++ join ", " missing)%string)
      end
  end.

(** [load_config] returns a configuration exactly when the file exists,
    parses, and has the three required keys, and it returns it unchanged.
    When keys are missing, the error names those of the required keys that
    the file lacks, in the order start_url, link_items_selector,
    export_button. *)
Theorem load_config_required (config_path : string)
    (file : option (option (gmap string json))) :
  (forall config,
      load_config config_path file = inr config <->
      file = Some (Some config)
      /\ forall key, key ∈ required -> is_Some (config !! key))
  /\ (forall msg,
        load_config config_path file = inl (MissingKeyError msg) ->
        exists config missing,
          file = Some (Some config)
          /\ msg = ("Missing configuration keys: " ++ join ", " missing)%string
          /\ missing <> []
          /\ missing `sublist_of` required
          /\ forall key, key ∈ missing <->
                         key ∈ required /\ config !! key = None)
  /\ (file = None -> exists msg,
        load_config config_path file = inl (FileNotFoundError msg)).
Proof.
  split; [|split].
  - intros config. unfold load_config.
    destruct file as [[cfg|]|]; [|by split; [|intros [? _]]..].
    destruct (filter (fun key => cfg !! key = None) required)
      as [|k ks] eqn:Hf.
    + split.
      * intros [= ->]. split; [done|]. intros key Hkey.
        destruct (config !! key) eqn:Hl; [by eexists|].
        assert (Hin : key ∈ filter (fun key => config !! key = None) required)
          by (by apply list_elem_of_filter).
        rewrite Hf in Hin. by apply elem_of_nil in Hin.
      * by intros [[= ->] _].
    + split; [done|]. intros [[= ->] Hreq].
      assert (Hin : k ∈ filter (fun key => config !! key = None) required)
        by (rewrite Hf; by left).
      apply list_elem_of_filter in Hin as [Hnone Hin].
      destruct (Hreq k Hin) as [v Hv]. congruence.
  - intros msg. unfold load_config. destruct file as [[cfg|]|]; [|done..].
    destruct (filter (fun key => cfg !! key = None) required)
      as [|k ks] eqn:Hf; [done|].
    intros [= <-]. exists cfg, (k :: ks). split; [done|]. split; [done|].
    split; [done|]. rewrite <- Hf. split; [apply sublist_filter|].
    intros key. rewrite list_elem_of_filter. tauto.
  - intros ->. by eexists.
Qed.

End Load_config.

(** ** Browser start *)

Definition DEFAULT_USER_AGENT : string :=
  "Mozilla/5.0 (Windows NT 10.0; Win64; x64) AppleWebKit/537.36 (KHTML, like Gecko) Chrome/124.0.0.0 Safari/537.36".

(** The options of [automation_config.json] that [build_driver] reads.  An
    absent option is [None]; a [user_agent] that is present and null is
    [Some None]. *)
Record DriverConfig : Type := mkDriverConfig {
  download_directory : option string;
  headless : option bool;
  user_agent : option (option string);
  chrome_binary_path : option string;
  page_load_timeout_seconds : option Z;
  request_headers_option : option (gmap string (option string))
}.

(** What the machine answers to [build_driver]. *)
Record Machine : Type := mkMachine {
  (** [resolve_working_path] *)
  resolve_working_path : string -> string;
  (** [download_dir_path.mkdir(parents=True, exist_ok=True)] *)
  mkdir : string -> Res unit;
  (** [webdriver.Chrome(service=..., options=options)], the driver
      manager's install included *)
  start_chrome : Res unit;
  execute_cdp_cmd : CdpCommand -> Res unit;
  set_page_load_timeout : Z -> Res unit
}.

(** What [build_driver] has set up when it returns. *)
Record Launched : Type := mkLaunched {
  download_dir_path : string;
  arguments : list string;
  binary_location : option string;
  download_default_directory : string;
  commands : list CdpCommand;
  page_load_timeout : option Z
}.

(** [build_driver] *)
Definition build_driver (machine : Machine) (config : DriverConfig)
  : Res Launched :=
  let download_dir := default "downloads" (download_directory config) in
  let path := resolve_working_path machine download_dir in
  _ ← mkdir machine path;
  let options1 :=
    if default false (headless config) then ["--headless=new"] else [] in
  let options2 :=
    options1 ++ ["--disable-gpu"; "--no-sandbox"; "--disable-dev-shm-usage"] in
  let ua := default (Some DEFAULT_USER_AGENT) (user_agent config) in
  let options3 :=
    if PyStr.truthy_opt ua
    then options2 ++ [("--user-agent=" ++ default "" ua)%string]
    else options2 in
  let binary :=
    if PyStr.truthy_opt (chrome_binary_path config)
    then chrome_binary_path config else None in
  _ ← start_chrome machine;
  let headers_set :=
    setup_request_headers (execute_cdp_cmd machine)
      (request_headers_option config) ua in
  _ ← headers_set.1;
  let page_timeout := page_load_timeout_seconds config in
  match page_timeout with
  | Some t =>
      if t =? 0 then Ok (mkLaunched path options3 binary path headers_set.2 None)
      else
        _ ← set_page_load_timeout machine t;
        Ok (mkLaunched path options3 binary path headers_set.2 (Some t))
  | None => Ok (mkLaunched path options3 binary path headers_set.2 None)
  end.

(** The user agent [build_driver] settles on. *)
Definition effective_user_agent (config : DriverConfig) : option string :=
  default (Some DEFAULT_USER_AGENT) (user_agent config).

(** When [build_driver] returns, the browser was given one user agent in
    two places that agree: the [--user-agent] argument is there exactly
    when the user agent is not empty, it is then the last argument, and
    the [User-Agent] header sent is the same string unless the configured
    headers give their own.  With an empty or null [user_agent] there is
    no such argument, and the header is sent only if configured.  A
    page-load timeout of zero is not set. *)
Theorem build_driver_user_agent
    (machine : Machine) (config : DriverConfig) (launched : Launched) :
  build_driver machine config = Ok launched ->
  let ua := effective_user_agent config in
  let flag := ("--user-agent=" ++ default "" ua)%string in
  (PyStr.truthy_opt ua = true ->
   (exists before, arguments launched = before ++ [flag])
   /\ forall headers,
        Network_setExtraHTTPHeaders headers ∈ commands launched ->
        headers !! "User-Agent"
        = match configured_header (request_headers_option config) "User-Agent" with
          | Some value => Some value
          | None => ua
          end)
  /\ (PyStr.truthy_opt ua = false ->
      (forall value, ("--user-agent=" ++ value)%string ∉ arguments launched)
      /\ forall headers,
           Network_setExtraHTTPHeaders headers ∈ commands launched ->
           headers !! "User-Agent"
           = configured_header (request_headers_option config) "User-Agent")
  /\ (user_agent config = None -> ua = Some DEFAULT_USER_AGENT)
  /\ (page_load_timeout_seconds config = Some 0 ->
      page_load_timeout launched = None)
  /\ download_default_directory launched = download_dir_path launched.
Proof.
  intros Hb. cbv zeta. unfold effective_user_agent.
  set (ua := default (Some DEFAULT_USER_AGENT) (user_agent config)).
  assert (Hshape : exists timeout,
            launched =
            mkLaunched
              (resolve_working_path machine
                 (default "downloads" (download_directory config)))
              (if PyStr.truthy_opt ua
               then ((if default false (headless config)
                      then ["--headless=new"] else [])
                     ++ ["--disable-gpu"; "--no-sandbox";
                         "--disable-dev-shm-usage"])
                    ++ [("--user-agent=" ++ default "" ua)%string]
               else (if default false (headless config)
                     then ["--headless=new"] else [])
                    ++ ["--disable-gpu"; "--no-sandbox";
                        "--disable-dev-shm-usage"])
              (if PyStr.truthy_opt (chrome_binary_path config)
               then chrome_binary_path config else None)
              (resolve_working_path machine
                 (default "downloads" (download_directory config)))
              (setup_request_headers (execute_cdp_cmd machine)
                 (request_headers_option config) ua).2
              timeout
            /\ (page_load_timeout_seconds config = Some 0 -> timeout = None)).
  { unfold build_driver in Hb. fold ua in Hb.
    destruct (mkdir machine _) as [[]|]; [|done].
    destruct (start_chrome machine) as [[]|]; [|done].
    cbn [mbind res_mbind res_bind] in Hb. cbv zeta in Hb.
    destruct ((setup_request_headers (execute_cdp_cmd machine)
                 (request_headers_option config) ua).1) as [[]|]; [|done].
    cbn [res_bind] in Hb.
    destruct (page_load_timeout_seconds config) as [t|].
    - destruct (t =? 0) eqn:Ht.
      + injection Hb as <-. by eexists.
      + destruct (set_page_load_timeout machine t) as [[]|]; [|done].
        injection Hb as <-. eexists. split; [done|]. intros [= ->]. done.
    - injection Hb as <-. by eexists. }
  destruct Hshape as (timeout & -> & Htimeout). cbn [arguments commands
    page_load_timeout download_default_directory download_dir_path].
  assert (Hsent : forall headers,
            Network_setExtraHTTPHeaders headers
            ∈ (setup_request_headers (execute_cdp_cmd machine)
                 (request_headers_option config) ua).2 ->
            headers = request_headers ua (request_headers_option config)).
  { intros headers. unfold setup_request_headers. cbv zeta.
    destruct (execute_cdp_cmd machine Network_enable) as [[]|e0].
    - destruct (execute_cdp_cmd machine _) as [[]|e1];
        [|destruct (is_WebDriverException e1)]; cbn [snd];
        intros Hin; repeat (apply elem_of_cons in Hin as [Hin|Hin]);
        try done; try (by injection Hin); by apply elem_of_nil in Hin.
    - destruct (is_WebDriverException e0); cbn [snd];
        intros Hin; repeat (apply elem_of_cons in Hin as [Hin|Hin]);
        try done; by apply elem_of_nil in Hin. }
  split; [|split; [|split; [|split; [done|done]]]].
  - intros Hua. rewrite Hua. split; [by eexists|].
    intros headers Hin. rewrite (Hsent _ Hin), request_headers_lookup.
    destruct (configured_header _ _); [done|].
    by rewrite decide_True.
  - intros Hua. rewrite Hua. split.
    + intros value Hin. destruct (default false (headless config));
        cbn [app] in Hin;
        repeat (apply elem_of_cons in Hin as [Hin|Hin]);
        try discriminate; by apply elem_of_nil in Hin.
    + intros headers Hin. rewrite (Hsent _ Hin), request_headers_lookup.
      destruct (configured_header _ _); [done|].
      rewrite decide_False; [done|]. intros [_ ?]. congruence.
  - intros Hnone. subst ua. by rewrite Hnone.
Qed.

Definition quiet_machine : Machine :=
  mkMachine (fun p => ("/opt/app/" ++ p)%string) (fun _ => Ok tt) (Ok tt)
    (fun _ => Ok tt) (fun _ => Ok tt).

Definition no_agent : DriverConfig :=
  mkDriverConfig None (Some true) (Some (Some "")) None (Some 0) None.

Lemma build_driver_user_agent_witness :
  exists launched,
    build_driver quiet_machine no_agent = Ok launched
    /\ arguments launched
       = ["--headless=new"; "--disable-gpu"; "--no-sandbox";
          "--disable-dev-shm-usage"]
    /\ page_load_timeout launched = None.
Proof.
  eexists. split; [reflexivity|]. split; [reflexivity|].
  apply (build_driver_user_agent quiet_machine no_agent _ eq_refl).
  reflexivity.
Defined.
